(** * Style crawler: a shallow embedding of [crawler.js]

    The crawler visits one page, takes a screenshot of every region of the
    catalog in [config.js], extracts the colours of every screenshot and
    records the computed styles of the regions.  This development embeds the
    functions of [crawler.js] as Rocq functions and proves what they do.

    - JavaScript strings are [string]s, read one code unit at a time.
    - JavaScript numbers are exact rationals or [NaN]; the rounding of IEEE
      doubles is not modelled.
    - JavaScript objects used as dictionaries are [gmap]s with string keys.
    - The browser (Nightmare), the file system and the colour extractor are
      collaborators of the program: they appear as records of operations and
      as explicit state. *)

From Stdlib Require Import ZArith QArith Qround String Ascii List Lia Permutation.
From stdpp Require Import gmap strings list fin_maps.

Open Scope string_scope.
Open Scope list_scope.

(** ** The methods of [String.prototype] the crawler calls *)

Module JS.

(** [s.split(sep)] for a separator of one character: the pieces between the
    separators, never an empty array. *)
Fixpoint split (sep : ascii) (s : string) : list string :=
  match s with
  | EmptyString => [EmptyString]
  | String c s' =>
      if Ascii.eqb c sep then EmptyString :: split sep s'
      else match split sep s' with
           | [] => [String c EmptyString]
           | w :: ws => String c w :: ws
           end
  end.

(** [a[0]] on an array of strings that is known to be non-empty. *)
Definition first (a : list string) : string := hd EmptyString a.

(** [s.replace(c, d)] with a string pattern of one character: only the first
    occurrence is replaced. *)
Fixpoint replaceFirst (c d : ascii) (s : string) : string :=
  match s with
  | EmptyString => EmptyString
  | String a s' =>
      if Ascii.eqb a c then String d s' else String a (replaceFirst c d s')
  end.

(** [s.replace(/c/g, d)] for a pattern of one character: every occurrence is
    replaced. *)
Fixpoint replaceAll (c d : ascii) (s : string) : string :=
  match s with
  | EmptyString => EmptyString
  | String a s' =>
      String (if Ascii.eqb a c then d else a) (replaceAll c d s')
  end.

(** The rest of [s] after the literal [p], when [s] starts with [p]. *)
Fixpoint stripPrefix (p s : string) : option string :=
  match p, s with
  | EmptyString, _ => Some s
  | String a p', String b s' =>
      if Ascii.eqb a b then stripPrefix p' s' else None
  | String _ _, EmptyString => None
  end.

(** The regular expression [/https?:\/\//] tried at the start of [s]: the
    rest of [s] after the match.  The optional [s] is greedy, and the
    matcher falls back to the branch without it. *)
Definition matchScheme (s : string) : option string :=
  match stripPrefix "http" s with
  | None => None
  | Some r =>
      match stripPrefix "s" r with
      | Some r' =>
          match stripPrefix "://" r' with
          | Some r'' => Some r''
          | None => stripPrefix "://" r
          end
      | None => stripPrefix "://" r
      end
  end.

(** [s.replace(/https?:\/\//, '')]: the leftmost match is removed, and the
    string is unchanged when there is none. *)
Fixpoint replaceScheme (s : string) : string :=
  match matchScheme s with
  | Some r => r
  | None =>
      match s with
      | EmptyString => EmptyString
      | String c s' => String c (replaceScheme s')
      end
  end.

(** [s[i]] for an integer index: [undefined] (here [None]) out of range,
    also for a negative index. *)
Definition charAt (s : string) (i : Z) : option ascii :=
  if (i <? 0)%Z then None else String.get (Z.to_nat i) s.

(** [s.slice(0, n)] for [0 <= n <= s.length]. *)
Definition slice0 (s : string) (n : Z) : string :=
  substring 0 (Z.to_nat n) s.

Definition length (s : string) : Z := Z.of_nat (String.length s).

End JS.

(** ** File and directory names *)

(** [buildTagSafe]: the name of a region's screenshot file. *)
Definition buildTagSafe (tag : string) : string :=
  JS.replaceFirst " " "-" (JS.first (JS.split "," tag)).

(** [buildUrlFileName]: the name of the directory of a run. *)
Definition buildUrlFileName (url : string) : string :=
  let url := JS.replaceAll "/" "-" (JS.replaceScheme url) in
  let urlLength := JS.length url in
  match JS.charAt url (urlLength - 1) with
  | Some c => if Ascii.eqb c "-" then JS.slice0 url (urlLength - 1) else url
  | None => url
  end.

(** The global [screenshotDir] of a run on [url]. *)
Definition screenshotDir (url : string) : string :=
  "./data/" +:+ buildUrlFileName url.

(** ** Numbers *)

(** A JavaScript number: a rational, or [NaN]. *)
Inductive number : Type :=
| Num (q : Q)
| NaN.

Module Num.

Definition add (a b : number) : number :=
  match a, b with
  | Num p, Num q => Num (p + q)
  | _, _ => NaN
  end.

(** [Math.floor] *)
Definition floor (a : number) : number :=
  match a with
  | Num q => Num (inject_Z (Qfloor q))
  | NaN => NaN
  end.

Definition ofZ (z : Z) : number := Num (inject_Z z).

End Num.

(** *** [parseInt] without a radix *)

Definition isWhiteSpace (c : ascii) : bool :=
  let n := N_of_ascii c in
  ((9 <=? n) && (n <=? 13) || (n =? 32))%N.

Fixpoint trimStart (s : string) : string :=
  match s with
  | String c s' => if isWhiteSpace c then trimStart s' else s
  | EmptyString => EmptyString
  end.

(** The value of a digit or letter, as in radix 36. *)
Definition digitValue (c : ascii) : option N :=
  let n := N_of_ascii c in
  if ((48 <=? n) && (n <=? 57))%N then Some (n - 48)%N
  else if ((97 <=? n) && (n <=? 122))%N then Some (n - 87)%N
  else if ((65 <=? n) && (n <=? 90))%N then Some (n - 55)%N
  else None.

Definition digitIn (R : N) (c : ascii) : option N :=
  match digitValue c with
  | Some d => if (d <? R)%N then Some d else None
  | None => None
  end.

(** The value of the longest prefix of [s] made of digits of radix [R],
    continuing from [acc]; [acc] is [None] while no digit has been read. *)
Fixpoint parseDigits (R : N) (s : string) (acc : option N) : option N :=
  match s with
  | EmptyString => acc
  | String c s' =>
      match digitIn R c with
      | Some d => parseDigits R s' (Some (R * default 0%N acc + d)%N)
      | None => acc
      end
  end.

Definition parseInt (s : string) : number :=
  let s := trimStart s in
  let '(sign, s) :=
    match JS.stripPrefix "-" s with
    | Some s' => ((-1)%Z, s')
    | None =>
        match JS.stripPrefix "+" s with
        | Some s' => (1%Z, s')
        | None => (1%Z, s)
        end
    end in
  let '(R, s) :=
    match JS.stripPrefix "0x" s with
    | Some s' => (16%N, s')
    | None =>
        match JS.stripPrefix "0X" s with
        | Some s' => (16%N, s')
        | None => (10%N, s)
        end
    end in
  match parseDigits R s None with
  | Some n => Num.ofZ (sign * Z.of_N n)
  | None => NaN
  end.

(** ** The page *)

(** What [el.getBoundingClientRect()] returns. *)
Module DOMRect.
Record t : Type := make { left : Q; top : Q; width : Q; height : Q }.
End DOMRect.

(** What [getBoundingRectangle] returns. *)
Module Rect.
Record t : Type := make { x : number; y : number; width : number; height : number }.
End Rect.

(** The page a function passed to [evaluate] runs in.  [matches sel el] says
    whether the single selector [sel] selects [el]; [amd] is the value of
    [typeof define === 'function' && define.amd]; [isVisible] is the predicate
    of the injected true-visibility script. *)
Record Page (Element : Type) : Type := {
  document : list Element;
  matches : string -> Element -> bool;
  amd : bool;
  isVisible : Element -> bool;
  getBoundingClientRect : Element -> DOMRect.t;
  getComputedStyle : Element -> string -> string
}.

Arguments document {Element} _.
Arguments matches {Element} _ _ _.
Arguments amd {Element} _.
Arguments isVisible {Element} _ _.
Arguments getBoundingClientRect {Element} _ _.
Arguments getComputedStyle {Element} _ _ _.

(** What [checkVisible] returns: a boolean, or a promise that will be resolved
    with one. *)
Inductive Visibility : Type :=
| Known (b : bool)
| Promised (b : bool).

(** A promise is an object, and every object is truthy. *)
Definition truthy (v : Visibility) : bool :=
  match v with
  | Known b => b
  | Promised _ => true
  end.

Section InPage.

Context {Element : Type} (page : Page Element).

(** A selector list selects an element when one of its selectors does.  The
    list is cut at its commas: selectors with a comma of their own, in a
    string or in a functional pseudo-class, are not modelled. *)
Definition matchesList (sel : string) (el : Element) : bool :=
  existsb (fun s => matches page s el) (JS.split "," sel).

(** [document.querySelectorAll(sel)]: the selected elements in document
    order. *)
Definition querySelectorAll (sel : string) : list Element :=
  List.filter (matchesList sel) (document page).

(** [document.querySelector(sel)] *)
Definition querySelector (sel : string) : option Element :=
  head (querySelectorAll sel).

(** [checkVisible]: with an AMD loader on the page the predicate comes from
    [requirejs], and the answer is a promise. *)
Definition checkVisible (el : Element) : Visibility :=
  if amd page then Promised (isVisible page el)
  else Known (isVisible page el).

(** The [for] loop of [getBoundingRectangle] over the elements left, with
    the current value of the variable [el] ([None] for [undefined] and for
    [null]). *)
Fixpoint visibleLoop (els : list Element) (el : option Element) : option Element :=
  match els with
  | [] => el
  | e :: els' =>
      let elIsVisible := checkVisible e in
      if truthy elIsVisible then Some e else visibleLoop els' None
  end.

(** The first half of [getBoundingRectangle]: the element it goes on with. *)
Definition selectElement (tag : string) : option Element :=
  visibleLoop (querySelectorAll tag) None.

(** The second half of [getBoundingRectangle], for the element found. *)
Definition paddedRectangle (el : Element) : Rect.t :=
  let rect := getBoundingClientRect page el in
  let style := getComputedStyle page el in
  let paddedWidth :=
    Num.add (Num.add (Num (DOMRect.width rect))
                     (parseInt (style "padding-left")))
            (parseInt (style "padding-right")) in
  let paddedHeight :=
    Num.add (Num.add (Num (DOMRect.height rect))
                     (parseInt (style "padding-top")))
            (parseInt (style "padding-bottom")) in
  {| Rect.x := Num.floor (Num (DOMRect.left rect));
     Rect.y := Num.floor (Num (DOMRect.top rect));
     Rect.width := Num.floor paddedWidth;
     Rect.height := Num.floor paddedHeight |}.

Definition getBoundingRectangle (tag : string) : option Rect.t :=
  match selectElement tag with
  | Some el => Some (paddedRectangle el)
  | None => None
  end.

End InPage.


(** ** The configuration, [config.js] *)

Record Config : Type := { tags : list string; props : list string }.

Definition config : Config :=
  {| tags :=
       [ "body";
         "header, #header, #hd, .header";
         "nav, #nav, .main_nav, .main--nav, .nav";
         "section";
         "content";
         "footer, #footer, .footer";
         "main, #main, [role=main], .main" ];
     props :=
       [ "background-color";
         "background-image";
         "background-repeat";
         "box-shadow";
         "color";
         "font-family";
         "font-size";
         "font-weight";
         "line-height";
         "text-transform";
         "text-shadow" ] |}.

(** The path of the screenshot of a region. *)
Definition screenshotPath (url tagSafe : string) : string :=
  screenshotDir url +:+ "/" +:+ tagSafe +:+ ".png".

(** ** The screenshot sequencer *)

(** The calls a Nightmare session receives.  A session runs an action to its
    end before the promise that carries it is resolved, so a call is one
    step of the model. *)
Inductive Call : Type :=
| Evaluate (tag : string)
| ScrollTo (y x : number)
| Screenshot (path : string) (clip : Rect.t)
| EndSession.

(** A Nightmare session: the page its [evaluate] runs in, and what its
    actions do to it. *)
Class Nightmare (Session Element : Type) : Type := {
  livePage : Session -> Page Element;
  scrollTo : number -> number -> Session -> Session;
  screenshot : string -> Rect.t -> Session -> Session;
  endSession : Session -> Session
}.

(** How a call of [getScreenshot] ends: [_resolve] is called with the ended
    session, or [buildTagSafe] throws on an index outside the catalog, or the
    model runs out of steps. *)
Inductive Sequenced (Session : Type) : Type :=
| Resolved (_nightmare : Session) (calls : list Call)
| Thrown (calls : list Call)
| OutOfFuel.

Arguments Resolved {Session} _ _.
Arguments Thrown {Session} _.
Arguments OutOfFuel {Session}.

Section Sequencer.

Context {Session Element : Type} {nightmare : Nightmare Session Element}.
Context (config : Config) (url : string).

(** The first [then] of [getScreenshot]: the capture of one region. *)
Definition capture (tag : string) (_nightmare : Session) : Session * list Call :=
  let tagSafe := buildTagSafe tag in
  match getBoundingRectangle (livePage _nightmare) tag with
  | Some rect =>
      let path := screenshotPath url tagSafe in
      (screenshot path rect (scrollTo (Rect.y rect) (Rect.x rect) _nightmare),
       [Evaluate tag; ScrollTo (Rect.y rect) (Rect.x rect); Screenshot path rect])
  | None => (_nightmare, [Evaluate tag])
  end.

(** The captures of a list of regions, one after the other: the state
    machine of the specification. *)
Fixpoint captureAll (tags : list string) (_nightmare : Session)
    : Session * list Call :=
  match tags with
  | [] => (_nightmare, [])
  | tag :: rest =>
      let '(_nightmare, made) := capture tag _nightmare in
      let '(_nightmare, more) := captureAll rest _nightmare in
      (_nightmare, made ++ more)
  end.

(** [getScreenshot], with the calls made so far.  Every call of the source
    function takes one unit of [fuel]. *)
Fixpoint getScreenshot (fuel : nat) (count : nat) (_nightmare : Session)
    (calls : list Call) : Sequenced Session :=
  match fuel with
  | O => OutOfFuel
  | S fuel' =>
      match tags config !! count with
      | None => Thrown calls
      | Some tag =>
          let '(_nightmare, made) := capture tag _nightmare in
          let calls := calls ++ made in
          if (Z.of_nat count =? Z.of_nat (length (tags config)) - 1)%Z
          then Resolved (endSession _nightmare) (calls ++ [EndSession])
          else getScreenshot fuel' (count + 1) _nightmare calls
      end
  end.

End Sequencer.

(** ** The colour extraction *)

(** A colour of the colour extractor, with its method [rgb]. *)
Record Color : Type := { rgb : N * N * N }.

Module ColorResult.
Record t : Type := make { tag : string; colors : list Color }.
End ColorResult.

(** The values the extraction tasks are resolved with, and the holes of the
    array of [Promise.all]. *)
Inductive Value : Type :=
| Null
| Undefined
| Object (r : ColorResult.t).

Definition filterArray (e : Value) : bool :=
  match e with
  | Object _ => true
  | Null | Undefined => false
  end.

(** A promise of this program is fulfilled or stays pending. *)
Inductive Settlement : Type :=
| Fulfilled (v : Value)
| Pending.

(** The file system: the size in bytes of every file there is. *)
Module fs.

Record Stats : Type := { size : N }.

(** [fs.stat]: the two arguments of its callback; the first says whether
    there is an error. *)
Definition stat (files : gmap string N) (path : string) : bool * option Stats :=
  match files !! path with
  | Some n => (false, Some {| size := n |})
  | None => (true, None)
  end.

(** What [fs.unlink] does with a call that passes no callback.  It is the
    runtime that decides, and the program does not say which one it runs
    on: up to Node 9 the file is removed (from Node 7 on with a deprecation
    warning); from Node 10 on the call throws a [TypeError] before the file
    is touched. *)
Inductive WithoutCallback : Type :=
| Removes
| Throws.

(** [fs.unlink( path )], without a callback: the files left, or [None] when
    the call throws. *)
Definition unlink (runtime : WithoutCallback) (path : string)
    (files : gmap string N) : option (gmap string N) :=
  match runtime with
  | Removes => Some (delete path files)
  | Throws => None
  end.

End fs.

Section FanOut.

(** [runtime] is what [fs.unlink] does without a callback; [getColors path]
    is the second argument of the callback of the colour extractor, [None]
    when it is called back without colours or not at all. *)
Context (runtime : fs.WithoutCallback).
Context (url : string) (getColors : string -> option (list Color)).

(** [promiseRelevantColors]: what the promise settles to and the files
    left.  An exception of [fs.unlink] leaves the callback of [fs.stat]
    before [resolve] is reached: the promise stays pending, and it is not
    rejected, the exception being thrown outside the executor.  Whether the
    runtime then ends the process or hands the exception to a handler, no
    file is changed and the promise is never settled. *)
Definition promiseRelevantColors (tag : string) (files : gmap string N)
    : Settlement * gmap string N :=
  let tagSafe := buildTagSafe tag in
  let path := screenshotPath url tagSafe in
  let '(err, stats) := fs.stat files path in
  if negb err && from_option (fun st => 0 <? fs.size st)%N false stats then
    match getColors path with
    | Some _colors =>
        (Fulfilled (Object {| ColorResult.tag := tagSafe;
                              ColorResult.colors := _colors |}), files)
    | None => (Pending, files)
    end
  else if from_option (fun st => fs.size st =? 0)%N false stats then
    match fs.unlink runtime path files with
    | Some files => (Fulfilled Null, files)
    | None => (Pending, files)
    end
  else
    (Fulfilled Null, files).

(** The state of [Promise.all]: the array of values and the number of
    promises that are still pending. *)
Record All : Type := { values : list Value; remaining : nat }.

Definition allOf (n : nat) : All :=
  {| values := replicate n Undefined; remaining := n |}.

Definition settle (i : nat) (v : Value) (a : All) : All :=
  {| values := <[i:=v]> (values a); remaining := pred (remaining a) |}.

(** [Promise.all] over promises whose settlements are known, when they
    settle in the order [order]: the promise of index [i] writes its value at
    index [i]; a pending promise never does. *)
Definition settleIn (results : list Settlement) (order : list nat) (a : All) : All :=
  fold_left
    (fun a i =>
       match results !! i with
       | Some (Fulfilled v) => settle i v a
       | _ => a
       end)
    order a.

Definition fulfilledAt (results : list Settlement) (i : nat) : bool :=
  match results !! i with
  | Some (Fulfilled _) => true
  | _ => false
  end.

(** What [Promise.all] is fulfilled with, if it is. *)
Definition promiseAll (results : list Settlement) (order : list nat)
    : option (list Value) :=
  let a := settleIn results order (allOf (length results)) in
  if (remaining a =? 0)%nat then Some (values a) else None.

(** What every task of the catalog settles to when it runs on [files]. *)
Definition outcomes (config : Config) (files : gmap string N) : list Settlement :=
  map (fun tag => fst (promiseRelevantColors tag files)) (tags config).

(** The task of index [i] completes. *)
Definition complete (config : Config) (st : gmap string N * All) (i : nat)
    : gmap string N * All :=
  match tags config !! i with
  | Some tag =>
      let '(r, files) := promiseRelevantColors tag (fst st) in
      match r with
      | Fulfilled v => (files, settle i v (snd st))
      | Pending => (files, snd st)
      end
  | None => st
  end.

(** [promiseAllRelevantColors] when the tasks complete in the order [order]:
    the array passed to [writeRelavantColorsJSON], if [Promise.all] is
    fulfilled, and the files left. *)
Definition promiseAllRelevantColors (config : Config) (order : list nat)
    (files : gmap string N) : option (list Value) * gmap string N :=
  let '(files, a) :=
    fold_left (complete config) order (files, allOf (length (tags config))) in
  (if (remaining a =? 0)%nat then Some (List.filter filterArray (values a)) else None,
   files).

(** The callback of the [forEach] of [writeRelavantColorsJSON]; [None]
    stands for the [TypeError] of reading a property of [null] or
    [undefined]. *)
Definition recordColors (_colors : option (gmap string (list (N * N * N))))
    (_color : Value) : option (gmap string (list (N * N * N))) :=
  match _colors, _color with
  | Some _colors, Object _color =>
      Some (<[ColorResult.tag _color:=map rgb (ColorResult.colors _color)]>
              _colors)
  | _, _ => None
  end.

(** The object [writeRelavantColorsJSON] writes to [colors.json]. *)
Definition writeRelavantColorsJSON (colors : list Value)
    : option (gmap string (list (N * N * N))) :=
  fold_left recordColors colors (Some ∅).

(** The files [files] are the files [files0], without some of those of size
    zero where [fs.unlink] removes them. *)
Definition emptiedFrom (files0 files : gmap string N) : Prop :=
  forall p, files !! p = files0 !! p \/
            (runtime = fs.Removes /\
             files0 !! p = Some 0%N /\ files !! p = None).

(** There is no screenshot with content at [p]. *)
Definition noContent (files : gmap string N) (p : string) : Prop :=
  files !! p = None \/ files !! p = Some 0%N.

End FanOut.

(** ** The style sampler *)

(** [scrapeStyles], evaluated in [page]. *)
Definition scrapeStyles {Element : Type} (page : Page Element) (config : Config)
    : gmap string (gmap string string) :=
  fold_left
    (fun style tag =>
       match querySelector page tag with
       | Some _tag =>
           let _tag := getComputedStyle page _tag in
           let _style :=
             fold_left (fun _style _p => <[_p:=_tag _p]> _style)
                       (props config) ∅ in
           <[tag:=_style]> style
       | None => style
       end)
    (tags config) ∅.


(** ** What the specification says, where it is compared with the code *)

Module Spec.

(** A string with all its whitespace removed. *)
Fixpoint removeWhitespace (s : string) : string :=
  match s with
  | EmptyString => EmptyString
  | String c s' =>
      if isWhiteSpace c then removeWhitespace s'
      else String c (removeWhitespace s')
  end.

(** How many times the character [c] occurs in [s]. *)
Fixpoint occurrences (c : ascii) (s : string) : nat :=
  match s with
  | EmptyString => 0
  | String a s' => (if Ascii.eqb a c then 1 else 0) + occurrences c s'
  end.

(** The last character of a string. *)
Fixpoint lastChar (s : string) : option ascii :=
  match s with
  | EmptyString => None
  | String c EmptyString => Some c
  | String _ s' => lastChar s'
  end.

(** A string without its last character when that is a hyphen: one trailing
    hyphen trimmed. *)
Fixpoint trimHyphen (s : string) : string :=
  match s with
  | EmptyString => EmptyString
  | String c EmptyString => if Ascii.eqb c "-" then EmptyString else s
  | String c s' => String c (trimHyphen s')
  end.

(** The primary selector of a group: its first selector. *)
Definition primarySelector (tag : string) : string :=
  JS.first (JS.split "," tag).

(** The elements a group matches, ordered by the position of the matching
    selector in the group and then by document order. *)
Definition inSelectorOrder {Element : Type} (page : Page Element) (tag : string)
    : list Element :=
  flat_map (fun sel => List.filter (matches page sel) (document page))
           (JS.split "," tag).

(** The first element in that order that is visible. *)
Definition resolve {Element : Type} (page : Page Element) (tag : string)
    : option Element :=
  List.find (isVisible page) (inSelectorOrder page tag).

(** The decimal digits [s] starts with, and the rest of [s]. *)
Fixpoint spanDigits (s : string) : list N * string :=
  match s with
  | EmptyString => ([], EmptyString)
  | String c s' =>
      match digitIn 10 c with
      | Some d => let '(ds, r) := spanDigits s' in (d :: ds, r)
      | None => ([], s)
      end
  end.

Definition decimal (ds : list N) : N :=
  fold_left (fun acc d => 10 * acc + d)%N ds 0%N.

(** The length a computed style gives for a padding: the number of pixels
    written as [<digits>px] or [<digits>.<digits>px]. *)
Definition cssPixels (s : string) : option Q :=
  let '(ip, r) := spanDigits s in
  match ip with
  | [] => None
  | _ :: _ =>
      if String.eqb r "px" then Some (inject_Z (Z.of_N (decimal ip)))
      else
        match JS.stripPrefix "." r with
        | Some r' =>
            let '(fp, r'') := spanDigits r' in
            match fp with
            | [] => None
            | _ :: _ =>
                if String.eqb r'' "px"
                then Some (inject_Z (Z.of_N (decimal ip))
                           + (Z.of_N (decimal fp) # Pos.pow 10 (Pos.of_nat (length fp))))%Q
                else None
            end
        | None => None
        end
  end.

(** What a computed length looks like after its whole pixels. *)
Definition afterWhole (r : string) : Prop :=
  r = "px" \/ exists r', r = "." +:+ r'.

(** The bounding box of the specification for a layout rectangle and the
    four paddings, all in pixels. *)
Definition boundingRect (rect : DOMRect.t) (pl pr pt pb : Q) : Rect.t :=
  {| Rect.x := Num (inject_Z (Qfloor (DOMRect.left rect)));
     Rect.y := Num (inject_Z (Qfloor (DOMRect.top rect)));
     Rect.width := Num (inject_Z (Qfloor (DOMRect.width rect + pl + pr)));
     Rect.height := Num (inject_Z (Qfloor (DOMRect.height rect + pt + pb))) |}.

(** The whole pixels of a length. *)
Definition wholePixels (q : Q) : Q := inject_Z (Qfloor q).

End Spec.

(** ** Small pages to run the functions on *)

Module Demo.

Record Node : Type := {
  name : string;
  ident : string;
  shown : bool;
  box : DOMRect.t;
  style : string -> string
}.

(** Type selectors and [#id] selectors; the other selectors select nothing
    on these pages. *)
Definition selects (sel : string) (n : Node) : bool :=
  match trimStart sel with
  | String "#" i => String.eqb i (ident n)
  | s => String.eqb s (name n)
  end.

Definition pageOf (amd : bool) (nodes : list Node) : Page Node :=
  {| document := nodes;
     matches := selects;
     amd := amd;
     isVisible := shown;
     getBoundingClientRect := box;
     getComputedStyle := style |}.

(** A computed style with the four paddings given and every other property
    empty. *)
Definition paddings (l r t b : string) (p : string) : string :=
  if String.eqb p "padding-left" then l
  else if String.eqb p "padding-right" then r
  else if String.eqb p "padding-top" then t
  else if String.eqb p "padding-bottom" then b
  else if String.eqb p "color" then "rgb(0, 0, 0)"
  else EmptyString.

Definition headerDiv : Node :=
  {| name := "div"; ident := "header"; shown := true;
     box := DOMRect.make 0 0 800 60;
     style := paddings "0px" "0px" "0px" "0px" |}.

Definition headerTag : Node :=
  {| name := "header"; ident := ""; shown := true;
     box := DOMRect.make 0 60 800 40;
     style := paddings "0px" "0px" "0px" "0px" |}.

Definition hiddenHeader : Node :=
  {| name := "header"; ident := ""; shown := false;
     box := DOMRect.make 0 0 0 0;
     style := paddings "0px" "0px" "0px" "0px" |}.

(** The element of the padding example: 100 by 50 at (10.5, 20.25). *)
Definition padded (l r t b : string) : Node :=
  {| name := "section"; ident := ""; shown := true;
     box := DOMRect.make (21 # 2) (81 # 4) 100 50;
     style := paddings l r t b |}.

(** A session that stays on one page and does nothing else. *)
Definition still (page : Page Node) : Nightmare unit Node :=
  {| livePage := fun _ => page;
     scrollTo := fun _ _ s => s;
     screenshot := fun _ _ s => s;
     endSession := fun s => s |}.

End Demo.




(** ** The rest of [crawler.js] *)


(** The test of [writeStyleJSON] on the styles of one region: a property
    that is not in the object reads as [undefined], which is not
    ['none']. *)
Definition bgimageCandidate (tagStyle : gmap string string) : bool :=
  bool_decide (tagStyle !! "background-color" = Some "rgba(0, 0, 0, 0)")
  && negb (bool_decide (tagStyle !! "background-image" = Some "none")).

(** [writeStyleJSON]: the regions it logs as [bgimage candidate], as a set,
    and the object it passes to [writeJson] under the name [css]. *)
Definition writeStyleJSON (style : gmap string (gmap string string))
    : gset string * (gmap string (gmap string string) * string) :=
  (dom (filter (fun entry => bgimageCandidate (snd entry) = true) style),
   (style, "css")).

(** The kinds of calls of a session. *)
Definition isEvaluate (c : Call) : bool :=
  match c with Evaluate _ => true | _ => false end.

Definition isScrollTo (c : Call) : bool :=
  match c with ScrollTo _ _ => true | _ => false end.

Definition isScreenshot (c : Call) : bool :=
  match c with Screenshot _ _ => true | _ => false end.

(** The last colour result for the region [k] in an array. *)
Fixpoint lastResult (k : string) (vs : list Value) : option ColorResult.t :=
  match vs with
  | [] => None
  | v :: vs' =>
      match lastResult k vs' with
      | Some r => Some r
      | None =>
          match v with
          | Object r => if String.eqb (ColorResult.tag r) k then Some r else None
          | _ => None
          end
      end
  end.

(** The value a settled promise carries. *)
Definition valueOf (r : Settlement) : Value :=
  match r with
  | Fulfilled v => v
  | Pending => Undefined
  end.
(** * Theorems *)

(** Decides a membership in [a :: l] from what is known about [a] and [l]. *)
Ltac decide_cons :=
  first
    [ rewrite decide_True by (apply elem_of_cons; auto)
    | rewrite decide_False by (intros [?|?]%elem_of_cons; congruence) ].

(** ** Strings *)

Lemma split_nonempty sep s : JS.split sep s <> [].
Proof.
  destruct s as [|c s]; simpl; [discriminate|].
  destruct (Ascii.eqb c sep); [discriminate|].
  destruct (JS.split sep s); discriminate.
Qed.

Lemma replaceFirst_absent c d s :
  Spec.occurrences c s = 0 -> JS.replaceFirst c d s = s.
Proof.
  induction s as [|a s IH]; simpl; [reflexivity|].
  destruct (Ascii.eqb a c); [discriminate|].
  intros H. now rewrite IH.
Qed.

Lemma replaceAll_absent c d s :
  Spec.occurrences c s = 0 -> JS.replaceAll c d s = s.
Proof.
  induction s as [|a s IH]; simpl; [reflexivity|].
  destruct (Ascii.eqb a c); [discriminate|].
  intros H. now rewrite IH.
Qed.

Lemma replaceFirst_once c d s :
  Spec.occurrences c s <= 1 -> JS.replaceFirst c d s = JS.replaceAll c d s.
Proof.
  induction s as [|a s IH]; simpl; [reflexivity|].
  destruct (Ascii.eqb a c); simpl; intros H.
  - rewrite replaceAll_absent; [reflexivity | lia].
  - now rewrite IH.
Qed.

Lemma removeWhitespace_absent s :
  (forall c, isWhiteSpace c = true -> Spec.occurrences c s = 0) ->
  Spec.removeWhitespace s = s.
Proof.
  induction s as [|a s IH]; simpl; [reflexivity|]; intros H.
  destruct (isWhiteSpace a) eqn:Ha.
  - specialize (H a Ha). rewrite Ascii.eqb_refl in H. discriminate.
  - rewrite IH; [reflexivity|].
    intros c Hc. specialize (H c Hc).
    destruct (Ascii.eqb a c); [discriminate | exact H].
Qed.

Lemma stripPrefix_Some p s r : JS.stripPrefix p s = Some r -> s = p +:+ r.
Proof.
  revert s; induction p as [|a p IH]; intros s; simpl.
  - now intros [= ->].
  - destruct s as [|b s]; [discriminate|].
    destruct (Ascii.eqb a b) eqn:E; [|discriminate].
    apply Ascii.eqb_eq in E as ->. intros H. now rewrite (IH _ H).
Qed.

Lemma occurrences_app c s t :
  Spec.occurrences c (s +:+ t) = Spec.occurrences c s + Spec.occurrences c t.
Proof. induction s as [|a s IH]; simpl; [reflexivity | rewrite IH; lia]. Qed.

Lemma matchScheme_slash s r :
  JS.matchScheme s = Some r -> 0 < Spec.occurrences "/" s.
Proof.
  unfold JS.matchScheme.
  destruct (JS.stripPrefix "http" s) as [t|] eqn:E1; [|discriminate].
  apply stripPrefix_Some in E1 as ->.
  assert (Hfall : JS.stripPrefix "://" t = Some r ->
                  0 < Spec.occurrences "/" ("http" +:+ t)).
  { intros H. apply stripPrefix_Some in H as ->. simpl. lia. }
  destruct (JS.stripPrefix "s" t) as [t'|] eqn:E2; [|exact Hfall].
  destruct (JS.stripPrefix "://" t') as [t''|] eqn:E3; [|exact Hfall].
  intros _. apply stripPrefix_Some in E2 as ->.
  apply stripPrefix_Some in E3 as ->. simpl. lia.
Qed.

Lemma replaceScheme_absent s :
  Spec.occurrences "/" s = 0 -> JS.replaceScheme s = s.
Proof.
  induction s as [|a s IH]; intros H.
  - reflexivity.
  - simpl JS.replaceScheme.
    destruct (JS.matchScheme (String a s)) as [r|] eqn:E.
    + apply matchScheme_slash in E. lia.
    + f_equal. apply IH. simpl in H. lia.
Qed.

Lemma replaceAll_clears c d s :
  c <> d -> Spec.occurrences c (JS.replaceAll c d s) = 0.
Proof.
  intros Hcd. induction s as [|a s IH]; simpl; [reflexivity|].
  rewrite IH. destruct (Ascii.eqb a c) eqn:E.
  - destruct (Ascii.eqb d c) eqn:E'; [|reflexivity].
    apply Ascii.eqb_eq in E'. congruence.
  - now rewrite E.
Qed.

Lemma trimHyphen_occurrences c s :
  Spec.occurrences c (Spec.trimHyphen s) <= Spec.occurrences c s.
Proof.
  induction s as [|a s IH]; simpl; [lia|].
  destruct s as [|b s].
  - destruct (Ascii.eqb a "-"); simpl; lia.
  - change (Spec.occurrences c (String a (Spec.trimHyphen (String b s))))
      with ((if Ascii.eqb a c then 1 else 0)
            + Spec.occurrences c (Spec.trimHyphen (String b s))).
    lia.
Qed.

(** The test on the last character and the [slice] of [buildUrlFileName]
    trim one trailing hyphen. *)
Lemma charAt_last s :
  JS.charAt s (JS.length s - 1) = Spec.lastChar s.
Proof.
  unfold JS.charAt, JS.length.
  destruct s as [|a s]; [reflexivity|].
  replace (Z.of_nat (String.length (String a s)) - 1)%Z
    with (Z.of_nat (String.length s)) by (simpl String.length; lia).
  destruct (Z.ltb_spec (Z.of_nat (String.length s)) 0); [lia|].
  rewrite Nat2Z.id. clear.
  revert a; induction s as [|b s IH]; intros a; [reflexivity|].
  change (String.get (String.length s) (String b s)
          = Spec.lastChar (String b s)).
  apply IH.
Qed.

Lemma slice0_last s :
  Spec.lastChar s = Some "-"%char ->
  JS.slice0 s (JS.length s - 1) = Spec.trimHyphen s.
Proof.
  unfold JS.slice0, JS.length.
  destruct s as [|a s]; [discriminate|].
  replace (Z.of_nat (String.length (String a s)) - 1)%Z
    with (Z.of_nat (String.length s)) by (simpl String.length; lia).
  rewrite Nat2Z.id.
  revert a; induction s as [|b s IH]; intros a.
  - simpl. intros [= ->]. reflexivity.
  - intros H. simpl String.length.
    change (substring 0 (S (String.length s)) (String a (String b s)))
      with (String a (substring 0 (String.length s) (String b s))).
    rewrite IH by exact H. reflexivity.
Qed.

Lemma trimHyphen_other s :
  Spec.lastChar s <> Some "-"%char -> Spec.trimHyphen s = s.
Proof.
  induction s as [|a s IH]; [reflexivity|].
  destruct s as [|b s].
  - simpl. destruct (Ascii.eqb a "-") eqn:E; [|reflexivity].
    apply Ascii.eqb_eq in E as ->. congruence.
  - intros H. change (Spec.trimHyphen (String a (String b s)))
      with (String a (Spec.trimHyphen (String b s))).
    now rewrite IH.
Qed.

Lemma trimHyphen_shorter s :
  Spec.lastChar s = Some "-"%char -> Spec.trimHyphen s <> s.
Proof.
  induction s as [|a s IH]; [discriminate|].
  destruct s as [|b s].
  - simpl. intros [= ->]. discriminate.
  - intros H. change (Spec.trimHyphen (String a (String b s)))
      with (String a (Spec.trimHyphen (String b s))).
    intros [= E]. now apply IH.
Qed.

Lemma buildUrlFileName_unfold url :
  buildUrlFileName url
  = Spec.trimHyphen (JS.replaceAll "/" "-" (JS.replaceScheme url)).
Proof.
  unfold buildUrlFileName.
  set (u := JS.replaceAll "/" "-" (JS.replaceScheme url)).
  rewrite charAt_last.
  destruct (Spec.lastChar u) as [c|] eqn:E.
  - destruct (Ascii.eqb c "-") eqn:Ec.
    + apply Ascii.eqb_eq in Ec as ->. now apply slice0_last.
    + symmetry. apply trimHyphen_other. rewrite E. intros [= ->].
      now rewrite Ascii.eqb_refl in Ec.
  - symmetry. apply trimHyphen_other. now rewrite E.
Qed.

Lemma buildUrlFileName_no_slash url :
  Spec.occurrences "/" (buildUrlFileName url) = 0.
Proof.
  rewrite buildUrlFileName_unfold.
  pose proof (trimHyphen_occurrences "/"
                (JS.replaceAll "/" "-" (JS.replaceScheme url))) as H.
  rewrite replaceAll_clears in H by discriminate. lia.
Qed.

(** ** The names of files and directories *)

(** C6.  The directory of a run is named after the URL with its [http://] or
    [https://] scheme stripped, every slash replaced with a hyphen and one
    trailing hyphen trimmed: for every URL the name is the result of these
    three steps, a scheme at the start of the URL is the part the first step
    removes, and the two URLs of the specification give
    [./data/example.com-path] and [./data/example.com]. *)
Theorem buildUrlFileName_directory :
  (forall url,
      buildUrlFileName url
      = Spec.trimHyphen (JS.replaceAll "/" "-" (JS.replaceScheme url))) /\
  (forall rest,
      buildUrlFileName ("http://" +:+ rest)
      = Spec.trimHyphen (JS.replaceAll "/" "-" rest)) /\
  (forall rest,
      buildUrlFileName ("https://" +:+ rest)
      = Spec.trimHyphen (JS.replaceAll "/" "-" rest)) /\
  screenshotDir "https://example.com/path/" = "./data/example.com-path" /\
  screenshotDir "http://example.com" = "./data/example.com".
Proof.
  split; [exact buildUrlFileName_unfold|].
  split; [intros rest; now rewrite buildUrlFileName_unfold|].
  split; [intros rest; now rewrite buildUrlFileName_unfold|].
  split; reflexivity.
Qed.

(** C8, as the specification states it, fails: the first selector [ul li a]
    becomes [ul-li a], not [ullia]. *)
Lemma buildTagSafe_keeps_whitespace :
  buildTagSafe "ul li a, .menu" = "ul-li a" /\
  Spec.removeWhitespace (Spec.primarySelector "ul li a, .menu") = "ullia" /\
  buildTagSafe "ul li a, .menu"
  <> Spec.removeWhitespace (Spec.primarySelector "ul li a, .menu").
Proof. repeat split; [reflexivity .. | discriminate]. Qed.

(** C8, amended.  The identifier of a region is the first selector of its
    group: unchanged, which is also the first selector with its whitespace
    removed, when the first selector has no whitespace; and with its space
    replaced by a hyphen when it has at most one space. *)
Theorem buildTagSafe_first_selector tag :
  ((forall c, isWhiteSpace c = true ->
              Spec.occurrences c (Spec.primarySelector tag) = 0) ->
   buildTagSafe tag = Spec.primarySelector tag /\
   buildTagSafe tag = Spec.removeWhitespace (Spec.primarySelector tag)) /\
  (Spec.occurrences " " (Spec.primarySelector tag) <= 1 ->
   buildTagSafe tag = JS.replaceAll " " "-" (Spec.primarySelector tag)).
Proof.
  unfold buildTagSafe, Spec.primarySelector. split.
  - intros H. rewrite removeWhitespace_absent by exact H.
    rewrite replaceFirst_absent; [split; reflexivity|].
    apply H. reflexivity.
  - apply replaceFirst_once.
Qed.

Lemma buildTagSafe_first_selector_witness :
  buildTagSafe "header, #header, #hd, .header" = "header" /\
  buildTagSafe "ul li, .menu" = "ul-li".
Proof.
  split.
  - destruct (buildTagSafe_first_selector "header, #header, #hd, .header")
      as [H _].
    destruct H as [H _]; [|exact H].
    intros c Hc.
    destruct c as [[] [] [] [] [] [] [] []];
      try reflexivity; discriminate Hc.
  - destruct (buildTagSafe_first_selector "ul li, .menu") as [_ H].
    apply H. vm_compute. lia.
Defined.

(** C10, as stated, fails: a URL that ends with two slashes leaves one
    trailing hyphen, which a second application trims. *)
Lemma buildUrlFileName_not_idempotent :
  buildUrlFileName "http://example.com//" = "example.com-" /\
  buildUrlFileName (buildUrlFileName "http://example.com//") = "example.com" /\
  buildUrlFileName (buildUrlFileName "http://example.com//")
  <> buildUrlFileName "http://example.com//".
Proof. repeat split; [reflexivity .. | discriminate]. Qed.

(** C10, amended.  The output of [buildUrlFileName] has no slash, hence no
    scheme, so applying [buildUrlFileName] to its own output only trims one
    more trailing hyphen: the output is returned unchanged exactly when it
    does not end with a hyphen. *)
Theorem buildUrlFileName_twice url :
  Spec.occurrences "/" (buildUrlFileName url) = 0 /\
  buildUrlFileName (buildUrlFileName url)
  = Spec.trimHyphen (buildUrlFileName url) /\
  (Spec.lastChar (buildUrlFileName url) <> Some "-"%char ->
   buildUrlFileName (buildUrlFileName url) = buildUrlFileName url) /\
  (Spec.lastChar (buildUrlFileName url) = Some "-"%char ->
   buildUrlFileName (buildUrlFileName url) <> buildUrlFileName url).
Proof.
  pose proof (buildUrlFileName_no_slash url) as Hs.
  assert (E : buildUrlFileName (buildUrlFileName url)
              = Spec.trimHyphen (buildUrlFileName url)).
  { rewrite (buildUrlFileName_unfold (buildUrlFileName url)).
    rewrite replaceScheme_absent by exact Hs.
    rewrite replaceAll_absent by exact Hs. reflexivity. }
  split; [exact Hs|]. split; [exact E|]. rewrite E. split.
  - apply trimHyphen_other.
  - apply trimHyphen_shorter.
Qed.

Lemma buildUrlFileName_twice_witness :
  buildUrlFileName (buildUrlFileName "https://example.com/path/")
  = buildUrlFileName "https://example.com/path/" /\
  buildUrlFileName (buildUrlFileName "http://example.com//")
  <> buildUrlFileName "http://example.com//".
Proof.
  split.
  - destruct (buildUrlFileName_twice "https://example.com/path/")
      as (_ & _ & H & _).
    apply H. vm_compute. discriminate.
  - destruct (buildUrlFileName_twice "http://example.com//")
      as (_ & _ & _ & H).
    apply H. vm_compute. reflexivity.
Defined.

(** ** Selector resolution *)

Section Resolution.

Context {Element : Type} (page : Page Element).

Lemma visibleLoop_sync els :
  amd page = false ->
  visibleLoop page els None = List.find (isVisible page) els.
Proof.
  intros Hamd. induction els as [|e els IH]; simpl; [reflexivity|].
  unfold checkVisible. rewrite Hamd. simpl.
  destruct (isVisible page e); [reflexivity | exact IH].
Qed.

Lemma visibleLoop_amd els :
  amd page = true -> visibleLoop page els None = head els.
Proof.
  intros Hamd. destruct els as [|e els]; simpl; [reflexivity|].
  unfold checkVisible. now rewrite Hamd.
Qed.

(** The first element of a list that passes two tests, with what comes before
    it. *)
Lemma find_filter_first (f g : Element -> bool) l :
  match List.find g (List.filter f l) with
  | Some el =>
      exists before after,
        l = before ++ el :: after /\ f el = true /\ g el = true /\
        forall e, In e before -> f e = true -> g e = false
  | None => forall e, In e l -> f e = true -> g e = false
  end.
Proof.
  induction l as [|a l IH]; simpl.
  - intros e [].
  - destruct (f a) eqn:Hf; simpl.
    + destruct (g a) eqn:Hg.
      * exists [], l. repeat split; try assumption. intros e [].
      * destruct (List.find g (List.filter f l)) as [el|].
        -- destruct IH as (before & after & -> & Hfe & Hge & Hb).
           exists (a :: before), after. repeat split; try assumption.
           intros e [<-|Hin] He; [assumption | now apply Hb].
        -- intros e [<-|Hin] He; [assumption | now apply IH].
    + destruct (List.find g (List.filter f l)) as [el|].
      * destruct IH as (before & after & -> & Hfe & Hge & Hb).
        exists (a :: before), after. repeat split; try assumption.
        intros e [<-|Hin] He; [congruence | now apply Hb].
      * intros e [<-|Hin] He; [congruence | now apply IH].
Qed.

End Resolution.

(** C2, as the specification states it, fails: on a page whose [div#header]
    comes before its [header] element, both visible, the group
    [header, #header, #hd, .header] resolves to the [div], the first in
    document order, and not to the [header], the first in selector order. *)
Lemma selectElement_document_order :
  let page := Demo.pageOf false [Demo.headerDiv; Demo.headerTag] in
  let tag := "header, #header, #hd, .header" in
  option_map Demo.name (selectElement page tag) = Some "div" /\
  option_map Demo.name (Spec.resolve page tag) = Some "header" /\
  selectElement page tag <> Spec.resolve page tag.
Proof.
  repeat split; try reflexivity.
  intros H. apply (f_equal (option_map Demo.name)) in H.
  vm_compute in H. discriminate.
Qed.

(** C2, amended.  On a page whose visibility predicate answers with a
    boolean, selector resolution returns the first element in document order
    that is matched by some selector of the group and is visible, and
    [getBoundingRectangle] goes on with that element; it returns null when no
    matched element is visible. *)
Theorem selectElement_first_visible {Element : Type} (page : Page Element) tag :
  amd page = false ->
  match selectElement page tag with
  | Some el =>
      (exists before after,
         document page = before ++ el :: after /\
         matchesList page tag el = true /\
         isVisible page el = true /\
         forall e, In e before ->
                   matchesList page tag e = true -> isVisible page e = false) /\
      getBoundingRectangle page tag = Some (paddedRectangle page el)
  | None =>
      (forall e, In e (document page) ->
                 matchesList page tag e = true -> isVisible page e = false) /\
      getBoundingRectangle page tag = None
  end.
Proof.
  intros Hamd. unfold getBoundingRectangle.
  assert (E : selectElement page tag
              = List.find (isVisible page) (querySelectorAll page tag))
    by now apply visibleLoop_sync.
  pose proof (find_filter_first (matchesList page tag) (isVisible page)
                (document page)) as H.
  fold (querySelectorAll page tag) in H. rewrite <- E in H.
  destruct (selectElement page tag); now split.
Qed.

Lemma selectElement_first_visible_witness :
  let page :=
    Demo.pageOf false [Demo.hiddenHeader; Demo.headerDiv; Demo.headerTag] in
  let tag := "header, #header, #hd, .header" in
  amd page = false /\
  match selectElement page tag with
  | Some el =>
      (exists before after,
         document page = before ++ el :: after /\
         matchesList page tag el = true /\
         isVisible page el = true /\
         forall e, In e before ->
                   matchesList page tag e = true -> isVisible page e = false) /\
      getBoundingRectangle page tag = Some (paddedRectangle page el)
  | None =>
      (forall e, In e (document page) ->
                 matchesList page tag e = true -> isVisible page e = false) /\
      getBoundingRectangle page tag = None
  end.
Proof.
  split; [reflexivity|].
  apply (selectElement_first_visible
           (Demo.pageOf false
              [Demo.hiddenHeader; Demo.headerDiv; Demo.headerTag])
           "header, #header, #hd, .header").
  reflexivity.
Defined.

(** On a page that uses an AMD loader, [checkVisible] returns a promise, the
    loop takes it for a true value, and the first matched element is accepted
    whatever its visibility. *)
Lemma selectElement_amd {Element : Type} (page : Page Element) tag :
  amd page = true -> selectElement page tag = querySelector page tag.
Proof. intros Hamd. now apply visibleLoop_amd. Qed.

(** C3.  The code does not wait for the promise: on a page with an AMD
    loader whose only [header] element is not visible, the visibility value
    of the element is a promise (that resolves to false), and the element is
    accepted and measured all the same, where the same page without the
    loader gives null. *)
Theorem getBoundingRectangle_unawaited :
  let page := Demo.pageOf true [Demo.hiddenHeader] in
  let tag := "header, #header, #hd, .header" in
  isVisible page Demo.hiddenHeader = false /\
  checkVisible page Demo.hiddenHeader = Promised false /\
  selectElement page tag = Some Demo.hiddenHeader /\
  getBoundingRectangle page tag
  = Some (Rect.make (Num 0) (Num 0) (Num 0) (Num 0)) /\
  getBoundingRectangle (Demo.pageOf false [Demo.hiddenHeader]) tag = None.
Proof. repeat split; reflexivity. Qed.

(** ** The bounding box *)

Lemma digitIn_decimal c d :
  digitIn 10 c = Some d ->
  (d < 10)%N /\ isWhiteSpace c = false /\
  Ascii.eqb "-" c = false /\ Ascii.eqb "+" c = false /\
  Ascii.eqb "x" c = false /\ Ascii.eqb "X" c = false.
Proof.
  unfold digitIn. intros H.
  assert (Hd : (d < 10)%N).
  { destruct (digitValue c) as [d'|]; [|discriminate].
    destruct (N.ltb_spec d' 10); [|discriminate]. now injection H as <-. }
  split; [exact Hd|].
  destruct c as [[] [] [] [] [] [] [] []];
    vm_compute in H; try discriminate H; repeat split; reflexivity.
Qed.

(** [parseDigits] reads the digits [spanDigits] splits off. *)
Lemma parseDigits_span s acc :
  parseDigits 10 s acc
  = match fst (Spec.spanDigits s) with
    | [] => acc
    | ds => Some (fold_left (fun a d => 10 * a + d)%N ds (default 0%N acc))
    end.
Proof.
  revert acc; induction s as [|c s IH]; intros acc; simpl; [reflexivity|].
  destruct (digitIn 10 c) as [d|]; [|reflexivity].
  rewrite IH. destruct (Spec.spanDigits s) as [ds r]; simpl.
  destruct ds; reflexivity.
Qed.

Lemma spanDigits_digits s :
  Forall (fun d => d < 10)%N (fst (Spec.spanDigits s)).
Proof.
  induction s as [|c s IH]; simpl; [constructor|].
  destruct (digitIn 10 c) as [d|] eqn:E; [|constructor].
  destruct (Spec.spanDigits s) as [ds r]; simpl in *.
  constructor; [|exact IH]. now apply digitIn_decimal in E.
Qed.

Lemma decimal_bound ds a :
  Forall (fun d => d < 10)%N ds ->
  (fold_left (fun a d => 10 * a + d) ds a < (a + 1) * 10 ^ N.of_nat (length ds))%N.
Proof.
  intros H; revert a; induction H as [|d ds Hd _ IH]; intros a.
  - simpl. lia.
  - cbn [fold_left length]. specialize (IH (10 * a + d)%N).
    rewrite Nat2N.inj_succ, N.pow_succ_r'. nia.
Qed.

(** The floor of a whole number of pixels plus a proper decimal fraction. *)
Lemma Qfloor_fraction (n f : N) (k : positive) :
  (f < Npos k)%N ->
  Qfloor (inject_Z (Z.of_N n) + (Z.of_N f # k)) = Z.of_N n.
Proof.
  intros H. unfold Qfloor, Qplus, inject_Z. cbn [Qnum Qden].
  rewrite Pos.mul_1_l, Z.mul_1_r.
  rewrite Z.div_add_l by discriminate.
  rewrite Z.div_small; lia.
Qed.

Lemma pow10_pos n :
  n <> 0 -> Npos (Pos.pow 10 (Pos.of_nat n)) = (10 ^ N.of_nat n)%N.
Proof.
  intros Hn. destruct n as [|n]; [congruence|].
  rewrite <- (Nat2Pos.id (S n)) at 2 by discriminate.
  rewrite positive_nat_N. reflexivity.
Qed.

(** A computed length does not start like a hexadecimal literal. *)
Lemma stripPrefix_not_hex x s ds r :
  Spec.spanDigits s = (ds, r) ->
  Spec.afterWhole r ->
  (forall c d, digitIn 10 c = Some d -> Ascii.eqb x c = false) ->
  Ascii.eqb x "p" = false -> Ascii.eqb x "." = false ->
  JS.stripPrefix (String x "") s = None.
Proof.
  intros Hspan Hr Hdig Hp Hdot.
  destruct s as [|b t]; [reflexivity|].
  cbn [JS.stripPrefix]. cbn [Spec.spanDigits] in Hspan.
  destruct (digitIn 10 b) as [d|] eqn:Eb.
  - now rewrite (Hdig _ _ Eb).
  - injection Hspan as <- <-.
    destruct Hr as [E|[r' E]]; injection E as -> _;
      [now rewrite Hp | now rewrite Hdot].
Qed.

(** [parseInt] keeps the whole pixels of a computed length and drops the
    fraction. *)
Lemma parseInt_cssPixels s q :
  Spec.cssPixels s = Some q -> parseInt s = Num.ofZ (Qfloor q).
Proof.
  unfold Spec.cssPixels.
  pose proof (parseDigits_span s None) as Hparse.
  destruct (Spec.spanDigits s) as [ip r] eqn:Es.
  destruct ip as [|d0 ip]; [discriminate|].
  cbn [fst] in Hparse. intros Hq.
  (* the whole pixels are what [parseInt] returns *)
  assert (Hfloor : Qfloor q = Z.of_N (Spec.decimal (d0 :: ip)) /\ Spec.afterWhole r).
  { destruct (String.eqb_spec r "px") as [->|_].
    - injection Hq as <-. split; [apply Qfloor_Z | now left].
    - destruct (JS.stripPrefix "." r) as [r'|] eqn:Er; [|discriminate].
      apply stripPrefix_Some in Er.
      pose proof (spanDigits_digits r') as Hfp.
      destruct (Spec.spanDigits r') as [fp r''].
      destruct fp as [|f0 fp]; [discriminate|].
      destruct (String.eqb r'' "px"); [|discriminate].
      injection Hq as <-. split; [|right; now exists r'].
      apply Qfloor_fraction. rewrite pow10_pos by discriminate.
      pose proof (decimal_bound (f0 :: fp) 0 Hfp) as Hb.
      unfold Spec.decimal. cbn [length] in Hb. lia. }
  destruct Hfloor as [-> Hr].
  (* the string starts with a digit *)
  destruct s as [|c s]; [discriminate|].
  cbn [Spec.spanDigits] in Es.
  destruct (digitIn 10 c) as [d|] eqn:Ec; [|discriminate].
  destruct (digitIn_decimal c d Ec) as (_ & Hws & Hminus & Hplus & _).
  destruct (Spec.spanDigits s) as [ds r0] eqn:Es'.
  injection Es as _ <- <-.
  assert (Hx : forall x,
             (forall c d, digitIn 10 c = Some d -> Ascii.eqb x c = false) ->
             Ascii.eqb x "p" = false -> Ascii.eqb x "." = false ->
             JS.stripPrefix (String "0" (String x "")) (String c s) = None).
  { intros x H1 H2 H3.
    change (JS.stripPrefix (String "0" (String x "")) (String c s))
      with (if Ascii.eqb "0" c then JS.stripPrefix (String x "") s else None).
    rewrite (stripPrefix_not_hex x s ds r0 Es' Hr H1 H2 H3).
    now destruct (Ascii.eqb "0" c). }
  unfold parseInt.
  cbn [trimStart]. rewrite Hws.
  assert (Hsign : forall x, Ascii.eqb x c = false ->
                            JS.stripPrefix (String x "") (String c s) = None).
  { intros x Hxc. cbn [JS.stripPrefix]. now rewrite Hxc. }
  rewrite (Hsign "-"%char Hminus), (Hsign "+"%char Hplus).
  rewrite (Hx "x"%char), (Hx "X"%char);
    try reflexivity;
    try (intros c' d' H'; now apply digitIn_decimal in H').
  rewrite Hparse. cbn [default]. unfold Spec.decimal.
  now rewrite Z.mul_1_l.
Qed.

(** C4, as the specification states it, fails: an element 100 wide with a
    padding of 5.5 pixels on the left and on the right gets the width
    [floor(100 + 5 + 5) = 110], not [floor(100 + 5.5 + 5.5) = 111]. *)
Lemma getBoundingRectangle_drops_fraction :
  let el := Demo.padded "5.5px" "5.5px" "0px" "0px" in
  let page := Demo.pageOf false [el] in
  selectElement page "section" = Some el /\
  Spec.cssPixels (getComputedStyle page el "padding-left") = Some (55 # 10) /\
  Spec.cssPixels (getComputedStyle page el "padding-right") = Some (55 # 10) /\
  Spec.cssPixels (getComputedStyle page el "padding-top") = Some 0%Q /\
  Spec.cssPixels (getComputedStyle page el "padding-bottom") = Some 0%Q /\
  getBoundingRectangle page "section"
  = Some (Rect.make (Num 10) (Num 20) (Num 110) (Num 50)) /\
  Spec.boundingRect (getBoundingClientRect page el) (55 # 10) (55 # 10) 0 0
  = Rect.make (Num 10) (Num 20) (Num 111) (Num 50) /\
  getBoundingRectangle page "section"
  <> Some (Spec.boundingRect (getBoundingClientRect page el)
             (55 # 10) (55 # 10) 0 0).
Proof. repeat split; try reflexivity. vm_compute. discriminate. Qed.

(** C4, amended.  The bounding box of a resolved element with layout
    rectangle (left, top, width, height) and computed paddings pl, pr, pt, pb
    is [{x: floor(left), y: floor(top), width: floor(width + pl' + pr'),
    height: floor(height + pt' + pb')}] where pl', pr', pt', pb' are the
    whole pixels of the paddings; for paddings of whole pixels this is the
    box of the specification. *)
Theorem getBoundingRectangle_padded {Element : Type} (page : Page Element)
    tag el pl pr pt pb :
  selectElement page tag = Some el ->
  Spec.cssPixels (getComputedStyle page el "padding-left") = Some pl ->
  Spec.cssPixels (getComputedStyle page el "padding-right") = Some pr ->
  Spec.cssPixels (getComputedStyle page el "padding-top") = Some pt ->
  Spec.cssPixels (getComputedStyle page el "padding-bottom") = Some pb ->
  getBoundingRectangle page tag
  = Some (Spec.boundingRect (getBoundingClientRect page el)
            (Spec.wholePixels pl) (Spec.wholePixels pr)
            (Spec.wholePixels pt) (Spec.wholePixels pb)) /\
  (Spec.wholePixels pl == pl -> Spec.wholePixels pr == pr ->
   Spec.wholePixels pt == pt -> Spec.wholePixels pb == pb ->
   getBoundingRectangle page tag
   = Some (Spec.boundingRect (getBoundingClientRect page el) pl pr pt pb)).
Proof.
  intros Hel Hl Hr Ht Hb.
  assert (E : getBoundingRectangle page tag
              = Some (Spec.boundingRect (getBoundingClientRect page el)
                        (Spec.wholePixels pl) (Spec.wholePixels pr)
                        (Spec.wholePixels pt) (Spec.wholePixels pb))).
  { unfold getBoundingRectangle. rewrite Hel. unfold paddedRectangle.
    rewrite (parseInt_cssPixels _ _ Hl), (parseInt_cssPixels _ _ Hr),
      (parseInt_cssPixels _ _ Ht), (parseInt_cssPixels _ _ Hb).
    reflexivity. }
  split; [exact E|].
  intros El Er Et Eb. rewrite E. unfold Spec.boundingRect.
  do 4 f_equal; apply Qfloor_comp.
  - now rewrite El, Er.
  - now rewrite Et, Eb.
Qed.

(** The example of the specification: 100 by 50 with paddings of 5, 5, 0 and
    0 pixels gives 110 by 50. *)
Lemma getBoundingRectangle_padded_witness :
  let el := Demo.padded "5px" "5px" "0px" "0px" in
  let page := Demo.pageOf false [el] in
  getBoundingRectangle page "section"
  = Some (Rect.make (Num 10) (Num 20) (Num 110) (Num 50)).
Proof.
  cbv zeta.
  pose proof (getBoundingRectangle_padded
                (Demo.pageOf false [Demo.padded "5px" "5px" "0px" "0px"])
                "section" (Demo.padded "5px" "5px" "0px" "0px") 5 5 0 0
                eq_refl eq_refl eq_refl eq_refl eq_refl) as [_ H].
  exact (H eq_refl eq_refl eq_refl eq_refl).
Defined.

(** ** The style sampler *)

Section Sampler.

Context {Element : Type} (page : Page Element).

(** The entry [scrapeStyles] builds for an element: the inner [forEach]. *)
Lemma entry_lookup (computed : string -> string) (ps : list string)
    (init : gmap string string) (p : string) :
  fold_left (fun _style _p => <[_p:=computed _p]> _style) ps init !! p
  = if decide (p ∈ ps) then Some (computed p) else init !! p.
Proof.
  revert init; induction ps as [|a ps IH]; intros init; cbn [fold_left].
  - rewrite decide_False by apply not_elem_of_nil. reflexivity.
  - rewrite IH. destruct (decide (p ∈ ps)) as [Hin|Hnin].
    + decide_cons. reflexivity.
    + destruct (decide (a = p)) as [->|Hne].
      * decide_cons. apply lookup_insert_eq.
      * rewrite lookup_insert_ne by exact Hne.
        rewrite decide_False; [reflexivity|].
        intros [?|?]%elem_of_cons; congruence.
Qed.

(** The outer [forEach], from any object [init]. *)
Lemma scrapeStyles_fold (ps ts : list string)
    (init : gmap string (gmap string string)) (tag : string) :
  fold_left
    (fun style tag =>
       match querySelector page tag with
       | Some _tag =>
           <[tag:=fold_left
                    (fun _style _p => <[_p:=getComputedStyle page _tag _p]> _style)
                    ps ∅]> style
       | None => style
       end) ts init !! tag
  = match decide (tag ∈ ts), querySelector page tag with
    | left _, Some el =>
        Some (fold_left
                (fun _style _p => <[_p:=getComputedStyle page el _p]> _style)
                ps ∅)
    | _, _ => init !! tag
    end.
Proof.
  revert init; induction ts as [|t ts IH]; intros init; cbn [fold_left].
  - rewrite decide_False by apply not_elem_of_nil. reflexivity.
  - rewrite IH. destruct (decide (tag ∈ ts)) as [Hin|Hnin].
    + decide_cons.
      destruct (querySelector page tag) as [el|] eqn:Eq; [reflexivity|].
      destruct (decide (t = tag)) as [->|Hne].
      * now rewrite Eq.
      * destruct (querySelector page t); [|reflexivity].
        now rewrite lookup_insert_ne.
    + destruct (decide (t = tag)) as [->|Hne].
      * decide_cons.
        destruct (querySelector page tag) as [el|]; [|reflexivity].
        apply lookup_insert_eq.
      * decide_cons.
        destruct (querySelector page t); [|reflexivity].
        now rewrite lookup_insert_ne.
Qed.

(** [querySelector] returns the first element in document order that some
    selector of the list selects. *)
Lemma querySelector_first sel :
  match querySelector page sel with
  | Some el =>
      exists before after,
        document page = before ++ el :: after /\
        matchesList page sel el = true /\
        forall e, In e before -> matchesList page sel e = false
  | None => forall e, In e (document page) -> matchesList page sel e = false
  end.
Proof.
  unfold querySelector, querySelectorAll.
  induction (document page) as [|a l IH]; simpl.
  - intros e [].
  - destruct (matchesList page sel a) eqn:Ha; simpl.
    + exists [], l. repeat split; [assumption|]. intros e [].
    + destruct (head (List.filter (matchesList page sel) l)) as [el|].
      * destruct IH as (before & after & -> & Hel & Hb).
        exists (a :: before), after. repeat split; [assumption|].
        intros e [<-|Hin]; [assumption | now apply Hb].
      * intros e [<-|Hin]; [assumption | now apply IH].
Qed.

End Sampler.

(** C7, as the specification states it, fails: on a page whose only element
    is a [div#header], the primary selector [header] of the second region of
    the catalog matches nothing, and the region has an entry all the same. *)
Lemma scrapeStyles_whole_group :
  let page := Demo.pageOf false [Demo.headerDiv] in
  let tag := "header, #header, #hd, .header" in
  tag ∈ tags config /\
  Spec.primarySelector tag = "header" /\
  (forall el, In el (document page) ->
              matches page (Spec.primarySelector tag) el = false) /\
  is_Some (scrapeStyles page config !! tag).
Proof.
  repeat split.
  - cbn. set_solver.
  - intros el [<-|[]]. reflexivity.
  - vm_compute. eexists. reflexivity.
Qed.

(** C7, amended.  The style record has an entry for a key exactly when the
    key is a region of the catalog and some selector of its group matches at
    least one element; the entry, under the raw selector-group key, records
    every property of the configuration, and nothing else, from the computed
    style of the first element in document order that some selector of the
    group matches. *)
Theorem scrapeStyles_entries {Element : Type} (page : Page Element)
    (config : Config) (tag : string) :
  (is_Some (scrapeStyles page config !! tag) <->
   tag ∈ tags config /\
   exists el, In el (document page) /\ matchesList page tag el = true) /\
  (forall entry, scrapeStyles page config !! tag = Some entry ->
     exists el before after,
       document page = before ++ el :: after /\
       matchesList page tag el = true /\
       (forall e, In e before -> matchesList page tag e = false) /\
       forall p, entry !! p
                 = if decide (p ∈ props config)
                   then Some (getComputedStyle page el p) else None).
Proof.
  unfold scrapeStyles. rewrite scrapeStyles_fold.
  pose proof (querySelector_first page tag) as Hq.
  destruct (decide (tag ∈ tags config)) as [Hin|Hnin];
    [destruct (querySelector page tag) as [el|]|].
  - destruct Hq as (before & after & Hdoc & Hel & Hb). split.
    + split; [intros _|eauto]. split; [assumption|].
      exists el. split; [|assumption]. rewrite Hdoc.
      apply in_or_app. right. now left.
    + intros entry [= <-]. exists el, before, after.
      repeat split; try assumption.
      intros p. rewrite entry_lookup. now rewrite lookup_empty.
  - rewrite lookup_empty. split; [|discriminate]. split.
    + intros [? [=]].
    + intros (_ & el & Hel & Hm). rewrite (Hq el Hel) in Hm. discriminate.
  - rewrite lookup_empty. split; [|discriminate]. split.
    + intros [? [=]].
    + intros [? _]. contradiction.
Qed.

Lemma scrapeStyles_entries_witness :
  is_Some (scrapeStyles (Demo.pageOf false [Demo.headerDiv]) config
             !! "header, #header, #hd, .header").
Proof.
  destruct (scrapeStyles_entries (Demo.pageOf false [Demo.headerDiv]) config
              "header, #header, #hd, .header") as [[_ H] _].
  apply H. split.
  - cbn. set_solver.
  - exists Demo.headerDiv. split; [now left | reflexivity].
Defined.

(** ** The screenshot sequencer *)

Section Sequencing.

Context {Session Element : Type} {nightmare : Nightmare Session Element}.
Context (config : Config) (url : string).

Lemma captureAll_app ts1 ts2 (s : Session) :
  captureAll url (ts1 ++ ts2) s
  = let '(s1, c1) := captureAll url ts1 s in
    let '(s2, c2) := captureAll url ts2 s1 in
    (s2, c1 ++ c2).
Proof.
  revert s; induction ts1 as [|t ts1 IH]; intros s; cbn [captureAll app].
  - now destruct (captureAll url ts2 s).
  - destruct (capture url t s) as [s' made]. rewrite IH.
    destruct (captureAll url ts1 s') as [s1 c1].
    destruct (captureAll url ts2 s1) as [s2 c2].
    now rewrite app_assoc.
Qed.

Lemma capture_calls t (s : Session) :
  Forall (fun c => c <> EndSession) (snd (capture url t s)).
Proof.
  unfold capture.
  destruct (getBoundingRectangle (livePage s) t); cbn [snd];
    repeat constructor; discriminate.
Qed.

Lemma captureAll_calls ts (s : Session) :
  Forall (fun c => c <> EndSession) (snd (captureAll url ts s)).
Proof.
  revert s; induction ts as [|t ts IH]; intros s; cbn [captureAll].
  - constructor.
  - pose proof (capture_calls t s) as Hc.
    destruct (capture url t s) as [s' made]. specialize (IH s').
    destruct (captureAll url ts s') as [s'' more]. cbn [snd] in *.
    apply Forall_app. now split.
Qed.

(** From the index [count] on, [getScreenshot] captures the regions left in
    order, then ends the session and resolves. *)
Lemma getScreenshot_from fuel : forall count (s : Session) calls,
  count < length (tags config) ->
  length (tags config) - count <= fuel ->
  getScreenshot config url fuel count s calls
  = let '(s', made) := captureAll url (drop count (tags config)) s in
    Resolved (endSession s') (calls ++ made ++ [EndSession]).
Proof.
  induction fuel as [|fuel IH]; intros count s calls Hlt Hfuel; [lia|].
  cbn [getScreenshot].
  destruct (lookup_lt_is_Some_2 _ _ Hlt) as [tag Htag].
  rewrite Htag, (drop_S _ _ _ Htag). cbn [captureAll].
  destruct (capture url tag s) as [s1 made].
  destruct (Z.eqb_spec (Z.of_nat count) (Z.of_nat (length (tags config)) - 1))
    as [Hlast|Hmore].
  - rewrite drop_ge by lia. cbn [captureAll].
    now rewrite app_nil_r, app_assoc.
  - rewrite Nat.add_1_r, IH by lia.
    destruct (captureAll url (drop (S count) (tags config)) s1) as [s2 more].
    now rewrite <- !app_assoc.
Qed.

End Sequencing.

(** C9.  The sequencer processes the regions one after the other in catalog
    order.  Around every region of the catalog, the calls the session
    receives are: all the calls of the regions before it, then the calls of
    its own capture (the evaluation, and the scroll and the screenshot when a
    rectangle was found), made in the state the earlier captures left, then
    all the calls of the regions after it, and last the call that ends the
    session, after which the task resolves; no session is ended before.
    Any [fuel] of at least the size of the catalog is enough. *)
Theorem getScreenshot_sequential {Session Element : Type}
    {nightmare : Nightmare Session Element} (config : Config) (url : string)
    (s0 : Session) (before after : list string) (tag : string) (fuel : nat) :
  tags config = before ++ tag :: after ->
  length (tags config) <= fuel ->
  exists s1 c1 s2 c2 s3 c3,
    captureAll url before s0 = (s1, c1) /\
    capture url tag s1 = (s2, c2) /\
    captureAll url after s2 = (s3, c3) /\
    getScreenshot config url fuel 0 s0 []
    = Resolved (endSession s3) (c1 ++ c2 ++ c3 ++ [EndSession]) /\
    Forall (fun c => c <> EndSession) (c1 ++ c2 ++ c3).
Proof.
  intros Htags Hfuel.
  pose proof (captureAll_calls url before s0) as H1.
  destruct (captureAll url before s0) as [s1 c1] eqn:E1.
  pose proof (capture_calls url tag s1) as H2.
  destruct (capture url tag s1) as [s2 c2] eqn:E2.
  pose proof (captureAll_calls url after s2) as H3.
  destruct (captureAll url after s2) as [s3 c3] eqn:E3.
  exists s1, c1, s2, c2, s3, c3.
  split; [reflexivity|]. split; [exact E2|]. split; [exact E3|]. split.
  - rewrite getScreenshot_from.
    + rewrite drop_0, Htags, captureAll_app, E1. cbn [captureAll].
      rewrite E2, E3. cbn [app]. now rewrite <- !app_assoc.
    + rewrite Htags, length_app. cbn [length]. lia.
    + lia.
  - cbn [snd] in *. rewrite !Forall_app. auto.
Qed.

Lemma getScreenshot_sequential_witness :
  getScreenshot (nightmare := Demo.still (Demo.pageOf false [Demo.headerDiv]))
    config "http://example.com" 7 0 tt []
  = Resolved tt
      [ Evaluate "body";
        Evaluate "header, #header, #hd, .header";
        ScrollTo (Num 0) (Num 0);
        Screenshot "./data/example.com/header.png"
          (Rect.make (Num 0) (Num 0) (Num 800) (Num 60));
        Evaluate "nav, #nav, .main_nav, .main--nav, .nav";
        Evaluate "section";
        Evaluate "content";
        Evaluate "footer, #footer, .footer";
        Evaluate "main, #main, [role=main], .main";
        EndSession ].
Proof.
  destruct (getScreenshot_sequential
              (nightmare := Demo.still (Demo.pageOf false [Demo.headerDiv]))
              config "http://example.com" tt
              ["body"] (drop 2 (tags config))
              "header, #header, #hd, .header" 7 eq_refl)
    as (s1 & c1 & s2 & c2 & s3 & c3 & E1 & E2 & E3 & E & _).
  - cbn. lia.
  - rewrite E. vm_compute in E1, E2, E3.
    injection E1 as <- <-. injection E2 as <- <-. injection E3 as <- <-.
    reflexivity.
Defined.

(** ** The colour extraction *)

(** *** [Promise.all] keeps the order of its input *)

Lemma settleIn_cons results j order a :
  settleIn results (j :: order) a
  = settleIn results order
      match results !! j with
      | Some (Fulfilled v) => settle j v a
      | _ => a
      end.
Proof. reflexivity. Qed.

Lemma settleIn_values vs order : forall a,
  length (values a) = length vs ->
  forall i,
    values (settleIn (map Fulfilled vs) order a) !! i
    = if decide (i ∈ order) then vs !! i else values a !! i.
Proof.
  induction order as [|j order IH]; intros a Hlen i.
  - rewrite decide_False by apply not_elem_of_nil. reflexivity.
  - rewrite settleIn_cons.
    change (map Fulfilled vs) with (Fulfilled <$> vs) at 2.
    rewrite list_lookup_fmap.
    destruct (vs !! j) as [v|] eqn:Ej; cbn [fmap option_fmap option_map].
    + rewrite IH by (cbn; now rewrite length_insert).
      destruct (decide (i ∈ order)) as [Hin|Hnin].
      * decide_cons. reflexivity.
      * cbn [values settle]. destruct (decide (i = j)) as [->|Hne].
        -- decide_cons.
           rewrite list_lookup_insert_eq; [congruence|].
           rewrite Hlen. eapply lookup_lt_Some, Ej.
        -- decide_cons.
           now rewrite list_lookup_insert_ne.
    + rewrite IH by exact Hlen.
      destruct (decide (i ∈ order)) as [Hin|Hnin].
      * decide_cons. reflexivity.
      * destruct (decide (i = j)) as [->|Hne].
        -- decide_cons.
           rewrite Ej. apply lookup_ge_None. rewrite Hlen.
           now apply lookup_ge_None.
        -- decide_cons.
           reflexivity.
Qed.

Lemma settleIn_remaining results order : forall a,
  remaining (settleIn results order a)
  = remaining a - length (List.filter (fulfilledAt results) order).
Proof.
  induction order as [|j order IH]; intros a.
  - cbn. lia.
  - rewrite settleIn_cons, IH. cbn [List.filter]. unfold fulfilledAt at 2.
    destruct (results !! j) as [[v|]|]; cbn [length settle remaining]; lia.
Qed.

(** A value in the array comes from a fulfilled promise or was there from
    the start. *)
Lemma settleIn_origin results order : forall a i v,
  values (settleIn results order a) !! i = Some v ->
  values a !! i = Some v \/ results !! i = Some (Fulfilled v).
Proof.
  induction order as [|j order IH]; intros a i v H; [now left|].
  rewrite settleIn_cons in H. apply IH in H as [H|H]; [|now right].
  destruct (results !! j) as [[w|]|] eqn:Ej; try (now left).
  cbn [values settle] in H.
  destruct (decide (i = j)) as [->|Hne].
  - destruct (decide (j < length (values a))) as [Hlt|Hge].
    + rewrite list_lookup_insert_eq in H by exact Hlt.
      injection H as ->. now right.
    + rewrite list_insert_ge in H by lia. now left.
  - rewrite list_lookup_insert_ne in H by congruence. now left.
Qed.

Lemma filter_all_length (f : nat -> bool) l :
  (forall i, In i l -> f i = true) -> length (List.filter f l) = length l.
Proof.
  induction l as [|a l IH]; intros H; [reflexivity|]. cbn [List.filter].
  rewrite (H a) by now left. cbn [length]. rewrite IH; [reflexivity|].
  intros i Hi. apply H. now right.
Qed.

(** When every promise is fulfilled and each settles once, [Promise.all] is
    fulfilled with their values in the order of the input, whatever the
    order in which they settled. *)
Lemma promiseAll_input_order (vs : list Value) (order : list nat) :
  Permutation order (seq 0 (length vs)) ->
  promiseAll (map Fulfilled vs) order = Some vs.
Proof.
  intros Hperm. unfold promiseAll. rewrite length_map, settleIn_remaining.
  assert (Hin : forall i, In i order <-> i < length vs).
  { intros i. split; intros H.
    - eapply Permutation_in in H; [|exact Hperm]. apply in_seq in H. lia.
    - eapply Permutation_in; [symmetry; exact Hperm|]. apply in_seq. lia. }
  rewrite filter_all_length.
  - rewrite (Permutation_length Hperm), length_seq.
    cbn [allOf remaining]. rewrite Nat.sub_diag. cbn [Nat.eqb]. f_equal.
    apply list_eq. intros i.
    rewrite settleIn_values by (cbn; apply length_replicate).
    destruct (decide (i ∈ order)) as [Hi|Hi]; [reflexivity|].
    rewrite list_elem_of_In, Hin in Hi.
    cbn [allOf values].
    rewrite (proj1 (lookup_replicate_None _ _ _)) by lia.
    symmetry. apply lookup_ge_None. lia.
  - intros i Hi%Hin. unfold fulfilledAt.
    change (map Fulfilled vs) with (Fulfilled <$> vs).
    rewrite list_lookup_fmap.
    destruct (lookup_lt_is_Some_2 vs i Hi) as [v ->]. reflexivity.
Qed.

(** *** [Promise.all] with a promise that stays pending *)

Lemma filter_length_lt (f : nat -> bool) l i :
  In i l -> f i = false -> length (List.filter f l) < length l.
Proof.
  induction l as [|a l IH]; intros Hin Hf; [destruct Hin|].
  cbn [List.filter length].
  pose proof (List.filter_length_le f l) as Hle.
  destruct Hin as [->|Hin].
  - rewrite Hf. lia.
  - specialize (IH Hin Hf). destruct (f a); cbn [length]; lia.
Qed.

Lemma promiseAll_pending results order i :
  Permutation order (seq 0 (length results)) ->
  results !! i = Some Pending ->
  promiseAll results order = None.
Proof.
  intros Hperm Hi. unfold promiseAll. rewrite settleIn_remaining.
  cbn [allOf remaining].
  assert (Hin : In i order).
  { eapply Permutation_in; [symmetry; exact Hperm|].
    apply in_seq. apply lookup_lt_Some in Hi. lia. }
  pose proof (filter_length_lt (fulfilledAt results) order i Hin) as Hlt.
  unfold fulfilledAt at 1 in Hlt. rewrite Hi in Hlt. specialize (Hlt eq_refl).
  rewrite (Permutation_length Hperm), length_seq in Hlt.
  destruct (Nat.eqb_spec
              (length results
               - length (List.filter (fulfilledAt results) order)) 0);
    [lia | reflexivity].
Qed.


(** *** The extraction tasks *)

Section Tasks.

Context (runtime : fs.WithoutCallback).
Context (url : string) (getColors : string -> option (list Color)).

#[local] Abbreviation path tag := (screenshotPath url (buildTagSafe tag)).
#[local] Abbreviation task := (promiseRelevantColors runtime url getColors).

Lemma task_absent tag files :
  files !! path tag = None -> task tag files = (Fulfilled Null, files).
Proof. intros H. unfold promiseRelevantColors, fs.stat. now rewrite H. Qed.

Lemma task_empty tag files :
  files !! path tag = Some 0%N ->
  task tag files
  = match runtime with
    | fs.Removes => (Fulfilled Null, delete (path tag) files)
    | fs.Throws => (Pending, files)
    end.
Proof.
  intros H. unfold promiseRelevantColors, fs.stat. rewrite H.
  now destruct runtime.
Qed.

Lemma task_empty_removes tag files :
  runtime = fs.Removes -> files !! path tag = Some 0%N ->
  task tag files = (Fulfilled Null, delete (path tag) files).
Proof. intros Hrun H. rewrite (task_empty tag files H). now rewrite Hrun. Qed.

Lemma task_empty_throws tag files :
  runtime = fs.Throws -> files !! path tag = Some 0%N ->
  task tag files = (Pending, files).
Proof. intros Hrun H. rewrite (task_empty tag files H). now rewrite Hrun. Qed.

Lemma runtime_cases : runtime = fs.Removes \/ runtime = fs.Throws.
Proof. destruct runtime; auto. Qed.

Lemma task_content tag files n :
  files !! path tag = Some n -> (0 < n)%N ->
  task tag files
  = (match getColors (path tag) with
     | Some _colors =>
         Fulfilled (Object (ColorResult.make (buildTagSafe tag) _colors))
     | None => Pending
     end, files).
Proof.
  intros H Hn. unfold promiseRelevantColors, fs.stat. rewrite H.
  cbn [negb andb from_option fs.size].
  destruct (N.ltb_spec 0 n); [|lia].
  now destruct (getColors (path tag)).
Qed.

(** The three cases of a task. *)
Lemma task_cases tag files :
  (files !! path tag = None /\ task tag files = (Fulfilled Null, files)) \/
  (files !! path tag = Some 0%N /\
   (runtime = fs.Removes /\
    task tag files = (Fulfilled Null, delete (path tag) files) \/
    runtime = fs.Throws /\ task tag files = (Pending, files))) \/
  (exists n, files !! path tag = Some n /\ (0 < n)%N /\
             snd (task tag files) = files /\
             (fst (task tag files) = Pending \/
              exists _colors,
                fst (task tag files)
                = Fulfilled (Object (ColorResult.make (buildTagSafe tag) _colors)))).
Proof.
  destruct (files !! path tag) as [n|] eqn:E.
  - destruct (N.eq_dec n 0%N) as [->|Hn].
    + right; left. split; [reflexivity|].
      destruct runtime_cases as [Hrun|Hrun]; [left | right];
        (split; [exact Hrun|]);
        [now apply task_empty_removes | now apply task_empty_throws].
    + right; right. exists n. rewrite (task_content tag files n E) by lia.
      repeat split; [lia|].
      destruct (getColors (path tag)) as [cs|]; [right; now exists cs | now left].
  - left. split; [reflexivity | now apply task_absent].
Qed.

(** A task settles alike on the files of the start and on what earlier
    tasks left of them. *)
Lemma task_emptiedFrom tag files0 files :
  emptiedFrom runtime files0 files ->
  fst (task tag files) = fst (task tag files0) /\
  emptiedFrom runtime files0 (snd (task tag files)).
Proof.
  intros Hst. destruct (Hst (path tag)) as [E|(Hrun & E0 & E)].
  - destruct (files0 !! path tag) as [n|] eqn:H0.
    + destruct (N.eq_dec n 0%N) as [->|Hn].
      * destruct runtime_cases as [Hrun|Hrun].
        -- rewrite (task_empty_removes tag files0 Hrun H0),
             (task_empty_removes tag files Hrun E).
           split; [reflexivity|]. cbn [snd]. intros p.
           destruct (decide (p = path tag)) as [->|Hne].
           ++ right. repeat split; [assumption.. | apply lookup_delete_eq].
           ++ rewrite lookup_delete_ne by congruence. apply Hst.
        -- rewrite (task_empty_throws tag files0 Hrun H0),
             (task_empty_throws tag files Hrun E).
           now split.
      * rewrite (task_content tag files0 n H0) by lia.
        rewrite (task_content tag files n E) by lia. now split.
    + rewrite (task_absent tag files0 H0), (task_absent tag files E).
      now split.
  - rewrite (task_empty_removes tag files0 Hrun E0), (task_absent tag files E).
    now split.
Qed.

Lemma task_keeps_absent tag files p :
  files !! p = None -> snd (task tag files) !! p = None.
Proof.
  intros H.
  destruct (task_cases tag files)
    as [[_ ->]|[[_ [[_ ->]|[_ ->]]]|(n & _ & _ & -> & _)]];
    cbn [snd]; try assumption.
  destruct (decide (p = path tag)) as [->|Hne];
    [apply lookup_delete_eq | now rewrite lookup_delete_ne by congruence].
Qed.

Lemma task_keeps_noContent tag files p :
  noContent files p -> noContent (snd (task tag files)) p.
Proof.
  intros H.
  destruct (task_cases tag files)
    as [[_ ->]|[[_ [[_ ->]|[_ ->]]]|(n & _ & _ & -> & _)]];
    cbn [snd]; try assumption.
  destruct (decide (p = path tag)) as [->|Hne].
  - left. apply lookup_delete_eq.
  - unfold noContent. now rewrite lookup_delete_ne by congruence.
Qed.

(** Where [fs.unlink] removes the file, there is no screenshot at the path
    of a region without content once its task is done. *)
Lemma task_removes tag files :
  runtime = fs.Removes ->
  noContent files (path tag) -> snd (task tag files) !! path tag = None.
Proof.
  intros Hrun [H|H].
  - now rewrite task_absent.
  - rewrite task_empty_removes by assumption. apply lookup_delete_eq.
Qed.

(** Where [fs.unlink] throws, a task changes no file. *)
Lemma task_throws tag files :
  runtime = fs.Throws -> snd (task tag files) = files.
Proof.
  intros Hrun.
  destruct (task_cases tag files)
    as [[_ ->]|[[_ [[? _]|[_ ->]]]|(n & _ & _ & -> & _)]];
    [reflexivity | congruence | reflexivity | reflexivity].
Qed.

Section Catalog.

Context (config : Config).

Lemma outcomes_length files :
  length (outcomes runtime url getColors config files) = length (tags config).
Proof. apply length_map. Qed.

Lemma complete_cons order st i :
  fold_left (complete runtime url getColors config) (i :: order) st
  = fold_left (complete runtime url getColors config) order
      (complete runtime url getColors config st i).
Proof. reflexivity. Qed.

(** The tasks fill the array of [Promise.all] as promises do that settle to
    what the tasks settle to on the files of the start. *)
Lemma complete_settleIn files0 order : forall files a,
  emptiedFrom runtime files0 files ->
  exists files',
    fold_left (complete runtime url getColors config) order (files, a)
    = (files', settleIn (outcomes runtime url getColors config files0) order a) /\
    emptiedFrom runtime files0 files'.
Proof.
  induction order as [|i order IH]; intros files a Hst.
  - exists files. now split.
  - rewrite complete_cons, settleIn_cons. unfold complete at 2, outcomes at 2.
    cbn [fst snd].
    change (map ?f ?l !! i) with ((f <$> l) !! i). rewrite list_lookup_fmap.
    destruct (tags config !! i) as [tag|]; cbn [fmap option_fmap option_map].
    + destruct (task_emptiedFrom tag files0 files Hst) as [<- Hst'].
      destruct (task tag files) as [[v|] files1]; cbn [fst snd] in *;
        now apply IH.
    + now apply IH.
Qed.

Lemma complete_keeps_absent p order : forall files a,
  files !! p = None ->
  fst (fold_left (complete runtime url getColors config) order (files, a)) !! p = None.
Proof.
  induction order as [|i order IH]; intros files a H; [exact H|].
  rewrite complete_cons. unfold complete at 2. cbn [fst snd].
  destruct (tags config !! i) as [tag|]; [|now apply IH].
  pose proof (task_keeps_absent tag files p H) as H'.
  destruct (task tag files) as [[v|] files1]; cbn [snd] in H'; now apply IH.
Qed.

Lemma complete_removes tag i order : forall files a,
  runtime = fs.Removes ->
  tags config !! i = Some tag -> In i order ->
  noContent files (path tag) ->
  fst (fold_left (complete runtime url getColors config) order (files, a))
    !! path tag = None.
Proof.
  induction order as [|j order IH]; intros files a Hrun Htag Hin Hno;
    [destruct Hin|].
  rewrite complete_cons. unfold complete at 2. cbn [fst snd].
  destruct (decide (j = i)) as [->|Hne].
  - rewrite Htag. pose proof (task_removes tag files Hrun Hno) as H'.
    destruct (task tag files) as [[v|] files1]; cbn [snd] in H';
      now apply complete_keeps_absent.
  - destruct Hin as [?|Hin]; [congruence|].
    destruct (tags config !! j) as [tag'|]; [|now apply IH].
    pose proof (task_keeps_noContent tag' files _ Hno) as H'.
    destruct (task tag' files) as [[v|] files1]; cbn [snd] in H'; now apply IH.
Qed.

Lemma complete_throws order : forall files a,
  runtime = fs.Throws ->
  fst (fold_left (complete runtime url getColors config) order (files, a))
  = files.
Proof.
  induction order as [|i order IH]; intros files a Hrun; [reflexivity|].
  rewrite complete_cons. unfold complete at 2. cbn [fst snd].
  destruct (tags config !! i) as [tag|]; [|now apply IH].
  pose proof (task_throws tag files Hrun) as H'.
  destruct (task tag files) as [[v|] files1]; cbn [snd] in H'; subst files1;
    now apply IH.
Qed.

Lemma promiseAllRelevantColors_throws order files :
  runtime = fs.Throws ->
  snd (promiseAllRelevantColors runtime url getColors config order files)
  = files.
Proof.
  intros Hrun. unfold promiseAllRelevantColors.
  pose proof (complete_throws order files (allOf (length (tags config))) Hrun)
    as H.
  destruct (fold_left _ order _) as [files' a]. exact H.
Qed.

Lemma outcome_empty_throws files i tag :
  runtime = fs.Throws ->
  tags config !! i = Some tag ->
  files !! path tag = Some 0%N ->
  outcomes runtime url getColors config files !! i = Some Pending.
Proof.
  intros Hrun Hi H. unfold outcomes.
  change (map ?f ?l !! i) with ((f <$> l) !! i).
  rewrite list_lookup_fmap, Hi. cbn [fmap option_fmap option_map].
  now rewrite (task_empty_throws tag files Hrun H).
Qed.

(** The array passed on is what [Promise.all] is fulfilled with, filtered. *)
Lemma promiseAllRelevantColors_promiseAll order files :
  fst (promiseAllRelevantColors runtime url getColors config order files)
  = List.filter filterArray
      <$> promiseAll (outcomes runtime url getColors config files) order.
Proof.
  unfold promiseAllRelevantColors, promiseAll.
  destruct (complete_settleIn files order files
              (allOf (length (tags config)))) as (files' & -> & _).
  { intros p. now left. }
  rewrite outcomes_length. cbn [fst].
  now destruct (remaining _ =? 0)%nat.
Qed.

End Catalog.

End Tasks.

(** A task is resolved with null or with a colour result, never with
    [undefined]. *)
Lemma outcomes_values runtime url getColors config files vs v :
  outcomes runtime url getColors config files = map Fulfilled vs ->
  In v vs -> v = Null \/ exists r, v = Object r.
Proof.
  intros Hout Hin. apply list_elem_of_In, list_elem_of_lookup in Hin as [i Hi].
  assert (H : outcomes runtime url getColors config files !! i = Some (Fulfilled v)).
  { rewrite Hout. change (map Fulfilled vs) with (Fulfilled <$> vs).
    now rewrite list_lookup_fmap, Hi. }
  unfold outcomes in H.
  change (map ?f ?l !! i) with ((f <$> l) !! i) in H.
  rewrite list_lookup_fmap in H.
  destruct (tags config !! i) as [tag|]; [|discriminate].
  injection H as H.
  destruct (task_cases runtime url getColors tag files)
    as [[_ T]|[[_ [[_ T]|[_ T]]]|(n & _ & _ & _ & [T|[cs T]])]];
    rewrite T in H; cbn [fst] in H; try discriminate;
    injection H as <-; eauto.
Qed.

(** C1.  Whatever the order in which the extraction tasks complete, as long
    as each completes once: [Promise.all] is fulfilled with the values the
    tasks are resolved with in the order of the catalog, for every
    assignment of values to the tasks; and when the tasks of the catalog are
    resolved with the values [vs], the aggregated list is the list of the
    values of [vs] that are not null, in the order of the catalog. *)
Theorem promiseAllRelevantColors_catalog_order (runtime : fs.WithoutCallback)
    (url : string) (getColors : string -> option (list Color)) (config : Config)
    (order : list nat) (files : gmap string N) :
  Permutation order (seq 0 (length (tags config))) ->
  (forall vs : list Value,
      length vs = length (tags config) ->
      promiseAll (map Fulfilled vs) order = Some vs) /\
  (forall vs : list Value,
      outcomes runtime url getColors config files = map Fulfilled vs ->
      fst (promiseAllRelevantColors runtime url getColors config order files)
      = Some (List.filter filterArray vs) /\
      forall v, In v vs -> (filterArray v = false <-> v = Null)).
Proof.
  intros Hperm. split.
  - intros vs Hlen. apply promiseAll_input_order. now rewrite Hlen.
  - intros vs Hout. split.
    + rewrite promiseAllRelevantColors_promiseAll, Hout.
      rewrite promiseAll_input_order; [reflexivity|].
      apply (f_equal (@length _)) in Hout.
      rewrite outcomes_length, length_map in Hout. now rewrite <- Hout.
    + intros v Hv.
      destruct (outcomes_values _ _ _ _ _ _ _ Hout Hv) as [->|[r ->]].
      * split; reflexivity.
      * split; discriminate.
Qed.

Lemma promiseAllRelevantColors_catalog_order_witness :
  let catalog :=
    {| tags := ["body"; "header, #header, #hd, .header"; "section"];
       props := [] |} in
  let files : gmap string N :=
    <["./data/example.com/section.png":=64%N]>
      (<["./data/example.com/body.png":=120%N]> ∅) in
  fst (promiseAllRelevantColors fs.Throws "http://example.com"
         (fun _ => Some [{| rgb := (255, 255, 255)%N |}]) catalog [2; 0; 1] files)
  = Some [Object (ColorResult.make "body" [{| rgb := (255, 255, 255)%N |}]);
          Object (ColorResult.make "section" [{| rgb := (255, 255, 255)%N |}])].
Proof.
  cbv zeta.
  refine (proj1 (proj2 (promiseAllRelevantColors_catalog_order fs.Throws
            "http://example.com" (fun _ => Some [{| rgb := (255, 255, 255)%N |}])
            {| tags := ["body"; "header, #header, #hd, .header"; "section"];
               props := [] |}
            [2; 0; 1] _ _)
            [Object (ColorResult.make "body" [{| rgb := (255, 255, 255)%N |}]);
             Null;
             Object (ColorResult.make "section" [{| rgb := (255, 255, 255)%N |}])]
            _)).
  - exact (perm_trans (perm_swap 0 2 [1]) (perm_skip 0 (perm_swap 1 2 []))).
  - vm_compute. reflexivity.
Defined.

(** The keys of [colors.json] are the regions of the colour results. *)
Lemma recordColors_failed res : fold_left recordColors res None = None.
Proof. induction res; auto. Qed.

Lemma writeRelavantColorsJSON_keys res :
  forall (init json : gmap string (list (N * N * N))) (k : string),
    fold_left recordColors res (Some init) = Some json ->
    is_Some (json !! k) ->
    is_Some (init !! k) \/
    exists r, In (Object r) res /\ ColorResult.tag r = k.
Proof.
  induction res as [|v res IH]; intros init json k Hfold Hk.
  - injection Hfold as <-. now left.
  - cbn [fold_left] in Hfold.
    destruct v as [| |r]; cbn [recordColors] in Hfold;
      try (rewrite recordColors_failed in Hfold; discriminate).
    destruct (IH _ _ k Hfold Hk) as [Hin|(r' & Hr' & <-)].
    + destruct (decide (ColorResult.tag r = k)) as [<-|Hne].
      * right. exists r. split; [now left | reflexivity].
      * rewrite lookup_insert_ne in Hin by exact Hne. now left.
    + right. exists r'. split; [now right | reflexivity].
Qed.

(** C5.  On every runtime the task of a region is resolved with null, and is
    not rejected, when there is no file at the path of its screenshot.  When
    the file is there with size zero the task calls [fs.unlink] without a
    callback.  Where that call removes the file, the task deletes the file
    and is resolved with null, and the file is not there after the colour
    pass.  Where that call throws, it throws here: the file stays, the
    task is never resolved and, whatever the order in which the tasks of a
    catalog with this region complete, [Promise.all] is never fulfilled and
    no file is changed.  On every runtime an array that is passed on has no
    colour result for a region without a screenshot with content, and
    [colors.json] has no key for it. *)
Theorem promiseRelevantColors_unlink_throws (url : string)
    (getColors : string -> option (list Color)) (tag : string)
    (files : gmap string N) :
  let path := screenshotPath url (buildTagSafe tag) in
  (forall runtime,
      files !! path = None ->
      promiseRelevantColors runtime url getColors tag files
      = (Fulfilled Null, files)) /\
  (files !! path = Some 0%N ->
   (promiseRelevantColors fs.Removes url getColors tag files
    = (Fulfilled Null, delete path files) /\
    forall (config : Config) (order : list nat),
      Permutation order (seq 0 (length (tags config))) ->
      In tag (tags config) ->
      snd (promiseAllRelevantColors fs.Removes url getColors config order files)
        !! path = None) /\
   (fs.unlink fs.Throws path files = None /\
    promiseRelevantColors fs.Throws url getColors tag files = (Pending, files) /\
    forall (config : Config) (order : list nat),
      Permutation order (seq 0 (length (tags config))) ->
      In tag (tags config) ->
      promiseAllRelevantColors fs.Throws url getColors config order files
      = (None, files))) /\
  (forall runtime (config : Config) (order : list nat) res,
      files !! path = None \/ files !! path = Some 0%N ->
      fst (promiseAllRelevantColors runtime url getColors config order files)
      = Some res ->
      (forall r, In (Object r) res -> ColorResult.tag r <> buildTagSafe tag) /\
      (forall json, writeRelavantColorsJSON res = Some json ->
                    json !! buildTagSafe tag = None)).
Proof.
  cbv zeta. split; [intros runtime; apply task_absent|]. split.
  - intros Hzero. split; [split|split; [|split]].
    + now apply task_empty_removes.
    + intros config order Hperm Htag.
      apply list_elem_of_In, list_elem_of_lookup in Htag as [i Hi].
      unfold promiseAllRelevantColors.
      pose proof (complete_removes fs.Removes url getColors config tag i order
                    files (allOf (length (tags config))) eq_refl Hi) as H.
      destruct (fold_left _ order _) as [files' a]. cbn [fst snd] in *.
      apply H; [|now right].
      eapply Permutation_in; [symmetry; exact Hperm|].
      apply in_seq. apply lookup_lt_Some in Hi. lia.
    + reflexivity.
    + now apply task_empty_throws.
    + intros config order Hperm Htag.
      apply list_elem_of_In, list_elem_of_lookup in Htag as [i Hi].
      rewrite (surjective_pairing (promiseAllRelevantColors _ _ _ _ _ _)).
      rewrite promiseAllRelevantColors_throws by reflexivity.
      rewrite promiseAllRelevantColors_promiseAll.
      rewrite (promiseAll_pending _ order i); [reflexivity| |].
      * now rewrite outcomes_length.
      * now apply (outcome_empty_throws fs.Throws url getColors config files
                     i tag).
  - intros runtime config order res Hno Hres.
    assert (Hnone : forall r, In (Object r) res ->
                              ColorResult.tag r <> buildTagSafe tag);
      [|split; [exact Hnone|];
        intros json Hjson; apply eq_None_not_Some; intros Hk;
        destruct (writeRelavantColorsJSON_keys res ∅ json _ Hjson Hk)
          as [[? Hempty]|(r & Hr & Heq)];
        [now rewrite lookup_empty in Hempty | now apply (Hnone r)]].
    intros r Hr Heq.
    rewrite promiseAllRelevantColors_promiseAll in Hres.
    unfold promiseAll in Hres.
    destruct (remaining _ =? 0)%nat; [|discriminate].
    injection Hres as <-. apply filter_In in Hr as [Hr _].
    apply list_elem_of_In, list_elem_of_lookup in Hr as [j Hj].
    apply settleIn_origin in Hj as [Hj|Hj].
    + cbn [allOf values] in Hj. apply lookup_replicate_1 in Hj as [[=] _].
    + unfold outcomes in Hj.
      change (map ?f ?l !! j) with ((f <$> l) !! j) in Hj.
      rewrite list_lookup_fmap in Hj.
      destruct (tags config !! j) as [tag'|]; [|discriminate].
      injection Hj as Hj.
      destruct (task_cases runtime url getColors tag' files)
        as [[_ T]|[[_ [[_ T]|[_ T]]]|(n & Hn & Hpos & _ & [T|[cs T]])]];
        rewrite T in Hj; cbn [fst] in Hj; try discriminate.
      injection Hj as <-. cbn [ColorResult.tag] in Heq.
      rewrite Heq in Hn. destruct Hno as [Hno|Hno]; rewrite Hno in Hn.
      * discriminate.
      * injection Hn as <-. lia.
Qed.

Lemma promiseRelevantColors_unlink_throws_witness :
  let files : gmap string N :=
    <["./data/example.com/header.png":=0%N]> ∅ in
  promiseRelevantColors fs.Throws "http://example.com" (fun _ => None)
    "section" files
  = (Fulfilled Null, files) /\
  promiseRelevantColors fs.Removes "http://example.com" (fun _ => None)
    "header, #header, #hd, .header" files
  = (Fulfilled Null, delete "./data/example.com/header.png" files) /\
  promiseRelevantColors fs.Throws "http://example.com" (fun _ => None)
    "header, #header, #hd, .header" files
  = (Pending, files) /\
  promiseAllRelevantColors fs.Throws "http://example.com" (fun _ => None)
    config [6; 5; 4; 3; 2; 1; 0] files
  = (None, files).
Proof.
  cbv zeta.
  split; [|split; [|split]].
  - destruct (promiseRelevantColors_unlink_throws "http://example.com"
                (fun _ => None) "section"
                (<["./data/example.com/header.png":=0%N]> ∅)) as (H & _).
    apply H. reflexivity.
  - destruct (promiseRelevantColors_unlink_throws "http://example.com"
                (fun _ => None) "header, #header, #hd, .header"
                (<["./data/example.com/header.png":=0%N]> ∅)) as (_ & H & _).
    destruct (H eq_refl) as [[H' _] _]. exact H'.
  - destruct (promiseRelevantColors_unlink_throws "http://example.com"
                (fun _ => None) "header, #header, #hd, .header"
                (<["./data/example.com/header.png":=0%N]> ∅)) as (_ & H & _).
    destruct (H eq_refl) as [_ (_ & H' & _)]. exact H'.
  - destruct (promiseRelevantColors_unlink_throws "http://example.com"
                (fun _ => None) "header, #header, #hd, .header"
                (<["./data/example.com/header.png":=0%N]> ∅)) as (_ & H & _).
    destruct (H eq_refl) as [_ (_ & _ & H')].
    apply (H' config [6; 5; 4; 3; 2; 1; 0]).
    + symmetry. apply (Permutation_rev (seq 0 7)).
    + cbn. tauto.
Defined.


(** * More of the program *)

(** ** Names *)

Lemma replaceAll_app c d s t :
  JS.replaceAll c d (s +:+ t) = JS.replaceAll c d s +:+ JS.replaceAll c d t.
Proof. induction s as [|a s IH]; simpl; [reflexivity | now rewrite IH]. Qed.

Lemma trimHyphen_snoc s : Spec.trimHyphen (s +:+ "-") = s.
Proof.
  induction s as [|a s IH]; [reflexivity|].
  change (String a s +:+ "-") with (String a (s +:+ "-")).
  destruct s as [|b s]; [reflexivity|].
  change (Spec.trimHyphen (String a (String b s +:+ "-")))
    with (String a (Spec.trimHyphen (String b s +:+ "-"))).
  now rewrite IH.
Qed.

Lemma lastChar_replaceAll c d s :
  Spec.lastChar (JS.replaceAll c d s)
  = option_map (fun a => if Ascii.eqb a c then d else a) (Spec.lastChar s).
Proof.
  induction s as [|a s IH]; [reflexivity|].
  destruct s as [|b s]; [reflexivity|].
  change (Spec.lastChar (JS.replaceAll c d (String a (String b s))))
    with (Spec.lastChar (JS.replaceAll c d (String b s))).
  rewrite IH. reflexivity.
Qed.

(** X1.  The URLs of one site page that differ by the scheme or by one slash at
    the end share one directory: when the part of the URL after the scheme
    ends with neither a slash nor a hyphen, the name of the directory is
    that part with its slashes replaced, with [http://] and with
    [https://], and with or without one more slash at the end. *)
Theorem buildUrlFileName_same_directory (rest : string) :
  Spec.lastChar rest <> Some "/"%char ->
  Spec.lastChar rest <> Some "-"%char ->
  buildUrlFileName ("http://" +:+ rest) = JS.replaceAll "/" "-" rest /\
  buildUrlFileName ("https://" +:+ rest) = JS.replaceAll "/" "-" rest /\
  buildUrlFileName ("http://" +:+ (rest +:+ "/")) = JS.replaceAll "/" "-" rest /\
  buildUrlFileName ("https://" +:+ (rest +:+ "/")) = JS.replaceAll "/" "-" rest.
Proof.
  intros Hslash Hhyphen.
  assert (Hkeep : Spec.trimHyphen (JS.replaceAll "/" "-" rest)
                  = JS.replaceAll "/" "-" rest).
  { apply trimHyphen_other. rewrite lastChar_replaceAll.
    destruct (Spec.lastChar rest) as [a|]; [|discriminate]. cbn [option_map].
    destruct (Ascii.eqb_spec a "/") as [->|Hne]; [congruence|].
    congruence. }
  assert (Hcut : Spec.trimHyphen (JS.replaceAll "/" "-" (rest +:+ "/"))
                 = JS.replaceAll "/" "-" rest).
  { rewrite replaceAll_app. apply trimHyphen_snoc. }
  rewrite !buildUrlFileName_unfold.
  change (JS.replaceScheme ("http://" +:+ rest)) with rest.
  change (JS.replaceScheme ("https://" +:+ rest)) with rest.
  change (JS.replaceScheme ("http://" +:+ (rest +:+ "/"))) with (rest +:+ "/").
  change (JS.replaceScheme ("https://" +:+ (rest +:+ "/"))) with (rest +:+ "/").
  now rewrite Hkeep, Hcut.
Qed.

Lemma buildUrlFileName_same_directory_witness :
  buildUrlFileName "http://example.com/path" = "example.com-path" /\
  buildUrlFileName "https://example.com/path" = "example.com-path" /\
  buildUrlFileName "http://example.com/path/" = "example.com-path" /\
  buildUrlFileName "https://example.com/path/" = "example.com-path".
Proof.
  apply (buildUrlFileName_same_directory "example.com/path");
    vm_compute; discriminate.
Defined.

Lemma matchScheme_colon s r :
  JS.matchScheme s = Some r -> 0 < Spec.occurrences ":" s.
Proof.
  unfold JS.matchScheme.
  destruct (JS.stripPrefix "http" s) as [t|] eqn:E1; [|discriminate].
  apply stripPrefix_Some in E1 as ->.
  assert (Hfall : JS.stripPrefix "://" t = Some r ->
                  0 < Spec.occurrences ":" ("http" +:+ t)).
  { intros H. apply stripPrefix_Some in H as ->. simpl. lia. }
  destruct (JS.stripPrefix "s" t) as [t'|] eqn:E2; [|exact Hfall].
  destruct (JS.stripPrefix "://" t') as [t''|] eqn:E3; [|exact Hfall].
  intros _. apply stripPrefix_Some in E2 as ->.
  apply stripPrefix_Some in E3 as ->. simpl. lia.
Qed.

Lemma replaceScheme_no_colon s :
  Spec.occurrences ":" s = 0 -> JS.replaceScheme s = s.
Proof.
  induction s as [|a s IH]; intros H; [reflexivity|].
  simpl JS.replaceScheme.
  destruct (JS.matchScheme (String a s)) as [r|] eqn:E.
  - apply matchScheme_colon in E. lia.
  - f_equal. apply IH. simpl in H. lia.
Qed.

(** X2.  A URL given without a scheme, here one without any colon, loses
    nothing at the front: its slashes are replaced and one hyphen at the end
    is trimmed. *)
Theorem buildUrlFileName_without_scheme (url : string) :
  Spec.occurrences ":" url = 0 ->
  buildUrlFileName url = Spec.trimHyphen (JS.replaceAll "/" "-" url).
Proof.
  intros H. now rewrite buildUrlFileName_unfold, replaceScheme_no_colon.
Qed.

Lemma buildUrlFileName_without_scheme_witness :
  buildUrlFileName "example.com/path/" = "example.com-path".
Proof.
  apply (buildUrlFileName_without_scheme "example.com/path/"). reflexivity.
Defined.

Lemma split_first_app a b :
  Spec.occurrences "," a = 0 ->
  JS.first (JS.split "," (a +:+ String "," b)) = a.
Proof.
  induction a as [|c a IH]; [reflexivity|]. cbn [Spec.occurrences].
  change (String c a +:+ String "," b) with (String c (a +:+ String "," b)).
  cbn [JS.split]. destruct (Ascii.eqb c ","); [discriminate|].
  intros H. specialize (IH H). unfold JS.first in *.
  pose proof (split_nonempty "," (a +:+ String "," b)) as Hne.
  destruct (JS.split "," (a +:+ String "," b)) as [|w ws]; [congruence|].
  cbn [hd] in *. now rewrite IH.
Qed.

Lemma split_first_alone a :
  Spec.occurrences "," a = 0 -> JS.first (JS.split "," a) = a.
Proof.
  induction a as [|c a IH]; [reflexivity|]. cbn [Spec.occurrences JS.split].
  destruct (Ascii.eqb c ","); [discriminate|].
  intros H. specialize (IH H). unfold JS.first in *.
  pose proof (split_nonempty "," a) as Hne.
  destruct (JS.split "," a) as [|w ws]; [congruence|].
  cbn [hd] in *. now rewrite IH.
Qed.

Lemma split_first_no_separator sep s :
  Spec.occurrences sep (JS.first (JS.split sep s)) = 0.
Proof.
  induction s as [|c s IH]; [reflexivity|]. cbn [JS.split].
  destruct (Ascii.eqb c sep) eqn:E; [reflexivity|].
  unfold JS.first in *.
  destruct (JS.split sep s) as [|w ws]; cbn [hd Spec.occurrences] in *;
    rewrite E; [reflexivity | now rewrite IH].
Qed.

Lemma replaceFirst_occurrences x c d s :
  Ascii.eqb c x = false -> Ascii.eqb d x = false ->
  Spec.occurrences x (JS.replaceFirst c d s) = Spec.occurrences x s.
Proof.
  intros Hc Hd. induction s as [|a s IH]; [reflexivity|].
  cbn [JS.replaceFirst]. destruct (Ascii.eqb_spec a c) as [->|Hne].
  - cbn [Spec.occurrences]. now rewrite Hc, Hd.
  - cbn [Spec.occurrences]. now rewrite IH.
Qed.

(** X3.  Only the first selector of a group names the screenshot of the region:
    whatever comes after the first comma is ignored, so two groups with the
    same first selector share one screenshot file; and the name has no
    comma, so it is not the raw key of a group of several selectors. *)
Theorem buildTagSafe_first_only (a b : string) :
  Spec.occurrences "," a = 0 ->
  buildTagSafe (a +:+ String "," b) = buildTagSafe a /\
  Spec.occurrences "," (buildTagSafe (a +:+ String "," b)) = 0 /\
  buildTagSafe (a +:+ String "," b) <> a +:+ String "," b.
Proof.
  intros Ha.
  assert (Hno : forall tag, Spec.occurrences "," (buildTagSafe tag) = 0).
  { intros tag. unfold buildTagSafe.
    rewrite replaceFirst_occurrences by reflexivity.
    apply split_first_no_separator. }
  split; [|split].
  - unfold buildTagSafe. now rewrite split_first_app, split_first_alone.
  - apply Hno.
  - intros E. pose proof (Hno (a +:+ String "," b)) as H. rewrite E in H.
    rewrite occurrences_app in H. cbn in H. lia.
Qed.

Lemma buildTagSafe_first_only_witness :
  buildTagSafe "nav, #nav, .main_nav, .main--nav, .nav" = buildTagSafe "nav".
Proof.
  apply (buildTagSafe_first_only "nav" " #nav, .main_nav, .main--nav, .nav").
  reflexivity.
Defined.


(** ** More of the sequencer *)

Section MoreSequencing.

Context {Session Element : Type} {nightmare : Nightmare Session Element}.
Context (config : Config) (url : string).

Lemma capture_evaluates t (s : Session) :
  List.filter isEvaluate (snd (capture url t s)) = [Evaluate t].
Proof.
  unfold capture. now destruct (getBoundingRectangle (livePage s) t).
Qed.

Lemma captureAll_evaluates ts : forall s : Session,
  List.filter isEvaluate (snd (captureAll url ts s)) = map Evaluate ts.
Proof.
  induction ts as [|t ts IH]; intros s; [reflexivity|]. cbn [captureAll].
  pose proof (capture_evaluates t s) as Ht.
  destruct (capture url t s) as [s1 made]. specialize (IH s1).
  destruct (captureAll url ts s1) as [s2 more]. cbn [snd] in *.
  now rewrite List.filter_app, Ht, IH.
Qed.

Lemma captureAll_length ts : forall s : Session,
  length ts <= length (snd (captureAll url ts s)) <= 3 * length ts.
Proof.
  induction ts as [|t ts IH]; intros s; [cbn; lia|]. cbn [captureAll].
  assert (Ht : 1 <= length (snd (capture url t s)) <= 3).
  { unfold capture. destruct (getBoundingRectangle (livePage s) t); cbn; lia. }
  destruct (capture url t s) as [s1 made]. specialize (IH s1).
  destruct (captureAll url ts s1) as [s2 more]. cbn [snd length] in *.
  rewrite length_app. lia.
Qed.

(** In the calls of a run of captures, a screenshot comes right after the
    evaluation and the scroll of its region. *)
Lemma captureAll_screenshot ts : forall (s : Session) pre path clip post,
  snd (captureAll url ts s) = pre ++ Screenshot path clip :: post ->
  exists pre' tag,
    pre = pre' ++ [Evaluate tag; ScrollTo (Rect.y clip) (Rect.x clip)] /\
    In tag ts /\ path = screenshotPath url (buildTagSafe tag).
Proof.
  induction ts as [|t ts IH]; intros s pre path clip post H.
  - cbn in H. now destruct pre.
  - cbn [captureAll] in H. unfold capture in H.
    destruct (getBoundingRectangle (livePage s) t) as [rect|].
    + destruct (captureAll url ts _) as [s2 more] eqn:E. cbn [snd app] in H.
      destruct pre as [|c1 [|c2 [|c3 pre]]]; cbn [app] in H.
      * discriminate.
      * discriminate.
      * injection H as <- <- <- <- _. exists [], t.
        repeat split. now left.
      * injection H as <- <- <- H.
        match type of E with
        | captureAll _ _ ?s1 = _ =>
            destruct (IH s1 pre path clip post) as (pre' & tag & -> & Hin & ->)
        end.
        { now rewrite E. }
        exists (Evaluate t :: ScrollTo (Rect.y rect) (Rect.x rect)
                  :: Screenshot (screenshotPath url (buildTagSafe t)) rect
                  :: pre'), tag.
        repeat split. now right.
    + destruct (captureAll url ts s) as [s2 more] eqn:E. cbn [snd app] in H.
      destruct pre as [|c1 pre]; cbn [app] in H; [discriminate|].
      injection H as <- H.
      destruct (IH s pre path clip post) as (pre' & tag & -> & Hin & ->).
      { now rewrite E. }
      exists (Evaluate t :: pre'), tag. repeat split. now right.
Qed.

End MoreSequencing.

(** X5.  Every region of the catalog is evaluated exactly once, in the order of
    the catalog, whatever the page shows; for a catalog of [N] regions the
    session receives between [N] and [3 * N] calls in all before the call
    that ends it, and none of them ends it. *)
Theorem getScreenshot_evaluates_catalog {Session Element : Type}
    {nightmare : Nightmare Session Element} (config : Config) (url : string)
    (s : Session) (fuel : nat) :
  tags config <> [] ->
  length (tags config) <= fuel ->
  exists s' calls,
    getScreenshot config url fuel 0 s [] = Resolved s' (calls ++ [EndSession]) /\
    List.filter isEvaluate calls = map Evaluate (tags config) /\
    length (tags config) <= length calls <= 3 * length (tags config) /\
    Forall (fun c => c <> EndSession) calls.
Proof.
  intros Hne Hfuel.
  assert (Hpos : 0 < length (tags config))
    by (destruct (tags config); [congruence | cbn; lia]).
  pose proof (getScreenshot_from config url fuel 0 s [] Hpos) as E.
  rewrite drop_0 in E.
  pose proof (captureAll_evaluates url (tags config) s) as Hev.
  pose proof (captureAll_length url (tags config) s) as Hlen.
  pose proof (captureAll_calls url (tags config) s) as Hend.
  destruct (captureAll url (tags config) s) as [s' made]. cbn [snd] in *.
  exists (endSession s'), made. split; [|auto].
  rewrite E by lia. reflexivity.
Qed.

Lemma getScreenshot_evaluates_catalog_witness :
  exists s' calls,
    getScreenshot (nightmare := Demo.still (Demo.pageOf false [Demo.headerDiv]))
      config "http://example.com" 7 0 tt []
    = Resolved s' (calls ++ [EndSession]) /\
    List.filter isEvaluate calls = map Evaluate (tags config) /\
    length (tags config) <= length calls <= 3 * length (tags config) /\
    Forall (fun c => c <> EndSession) calls.
Proof.
  apply (getScreenshot_evaluates_catalog
           (nightmare := Demo.still (Demo.pageOf false [Demo.headerDiv]))
           config "http://example.com" tt 7).
  - discriminate.
  - cbn. lia.
Defined.

(** X6.  A screenshot is taken right after the evaluation of its region and the
    scroll to the top left corner of its own clip, and it is written to the
    file of that region in the directory of the run. *)
Theorem getScreenshot_scrolls_first {Session Element : Type}
    {nightmare : Nightmare Session Element} (config : Config) (url : string)
    (s : Session) (fuel : nat) :
  tags config <> [] ->
  length (tags config) <= fuel ->
  exists s' calls,
    getScreenshot config url fuel 0 s [] = Resolved s' calls /\
    forall pre path clip post,
      calls = pre ++ Screenshot path clip :: post ->
      exists pre' tag,
        pre = pre' ++ [Evaluate tag; ScrollTo (Rect.y clip) (Rect.x clip)] /\
        In tag (tags config) /\
        path = screenshotPath url (buildTagSafe tag).
Proof.
  intros Hne Hfuel.
  assert (Hpos : 0 < length (tags config))
    by (destruct (tags config); [congruence | cbn; lia]).
  pose proof (getScreenshot_from config url fuel 0 s [] Hpos) as E.
  rewrite drop_0 in E.
  pose proof (captureAll_screenshot url (tags config) s) as Hshot.
  destruct (captureAll url (tags config) s) as [s' made]. cbn [snd] in *.
  exists (endSession s'), (made ++ [EndSession]).
  split; [rewrite E by lia; reflexivity|].
  intros pre path clip post H.
  destruct (exists_last (l := post)) as (post' & c & ->).
  - intros ->. apply app_inj_tail in H as [_ [=]].
  - change (pre ++ Screenshot path clip :: post' ++ [c])
      with (pre ++ (Screenshot path clip :: post') ++ [c]) in H.
    rewrite app_assoc in H. apply app_inj_tail in H as [H _].
    now apply (Hshot pre path clip post').
Qed.

Lemma getScreenshot_scrolls_first_witness :
  exists s' calls,
    getScreenshot (nightmare := Demo.still (Demo.pageOf false [Demo.headerDiv]))
      config "http://example.com" 7 0 tt []
    = Resolved s' calls /\
    forall pre path clip post,
      calls = pre ++ Screenshot path clip :: post ->
      exists pre' tag,
        pre = pre' ++ [Evaluate tag; ScrollTo (Rect.y clip) (Rect.x clip)] /\
        In tag (tags config) /\
        path = screenshotPath "http://example.com" (buildTagSafe tag).
Proof.
  apply (getScreenshot_scrolls_first
           (nightmare := Demo.still (Demo.pageOf false [Demo.headerDiv]))
           config "http://example.com" tt 7).
  - discriminate.
  - cbn. lia.
Defined.


(** ** More of the page functions *)

Section MorePage.

Context {Element : Type} (page : Page Element).

Lemma visibleLoop_in els el :
  visibleLoop page els None = Some el -> In el els.
Proof.
  induction els as [|e els IH]; [discriminate|]. cbn [visibleLoop].
  destruct (truthy (checkVisible page e)).
  - intros [= ->]. now left.
  - intros H. right. now apply IH.
Qed.

Lemma visibleLoop_head e els :
  truthy (checkVisible page e) = true ->
  visibleLoop page (e :: els) None = Some e.
Proof. intros H. cbn [visibleLoop]. now rewrite H. Qed.

Lemma querySelectorAll_none tag :
  (forall e, In e (document page) -> matchesList page tag e = false) ->
  querySelectorAll page tag = [].
Proof.
  unfold querySelectorAll. induction (document page) as [|a l IH]; intros H.
  - reflexivity.
  - cbn [List.filter]. rewrite (H a) by now left.
    apply IH. intros e He. apply H. now right.
Qed.

(** What [scrapeStyles] records under a key. *)
Lemma scrapeStyles_lookup (config : Config) tag :
  scrapeStyles page config !! tag
  = match decide (tag ∈ tags config), querySelector page tag with
    | left _, Some el =>
        Some (fold_left
                (fun _style _p => <[_p:=getComputedStyle page el _p]> _style)
                (props config) ∅)
    | _, _ => None
    end.
Proof.
  unfold scrapeStyles. rewrite scrapeStyles_fold.
  destruct (decide (tag ∈ tags config));
    [destruct (querySelector page tag)|]; try reflexivity;
    apply lookup_empty.
Qed.

End MorePage.

(** X7.  On a page with an AMD loader the visibility of the elements plays no
    role: [getBoundingRectangle] measures the first element in document
    order that some selector of the group matches, and returns null only
    when there is none. *)
Theorem getBoundingRectangle_amd {Element : Type} (page : Page Element)
    (tag : string) :
  amd page = true ->
  getBoundingRectangle page tag
  = option_map (paddedRectangle page) (querySelector page tag).
Proof.
  intros Hamd. unfold getBoundingRectangle, selectElement.
  rewrite visibleLoop_amd by exact Hamd.
  fold (querySelector page tag). now destruct (querySelector page tag).
Qed.

Lemma getBoundingRectangle_amd_witness :
  getBoundingRectangle
    (Demo.pageOf true [Demo.hiddenHeader; Demo.headerDiv]) "header"
  = Some (paddedRectangle
            (Demo.pageOf true [Demo.hiddenHeader; Demo.headerDiv])
            Demo.hiddenHeader).
Proof.
  apply (getBoundingRectangle_amd
           (Demo.pageOf true [Demo.hiddenHeader; Demo.headerDiv]) "header").
  reflexivity.
Defined.

(** X8.  A region that no element of the document matches is absent from both
    pipelines, with or without an AMD loader: [getBoundingRectangle] returns
    null for it, so that no screenshot is taken, and [scrapeStyles] records
    nothing under its key. *)
Theorem unmatched_region_absent {Element : Type} (page : Page Element)
    (config : Config) (tag : string) :
  (forall e, In e (document page) -> matchesList page tag e = false) ->
  getBoundingRectangle page tag = None /\
  scrapeStyles page config !! tag = None.
Proof.
  intros H. pose proof (querySelectorAll_none page tag H) as E. split.
  - unfold getBoundingRectangle, selectElement. now rewrite E.
  - rewrite scrapeStyles_lookup. unfold querySelector. rewrite E.
    now destruct (decide (tag ∈ tags config)).
Qed.

Lemma unmatched_region_absent_witness :
  getBoundingRectangle (Demo.pageOf true [Demo.headerDiv]) "section" = None /\
  scrapeStyles (Demo.pageOf true [Demo.headerDiv]) config !! "section" = None.
Proof.
  apply (unmatched_region_absent (Demo.pageOf true [Demo.headerDiv]) config
           "section").
  intros e [<-|[]]. reflexivity.
Defined.

(** X9.  Every region of the catalog for which [getBoundingRectangle] finds a
    rectangle on a page has an entry in the styles [scrapeStyles] reads from
    that page. *)
Theorem captured_region_has_styles {Element : Type} (page : Page Element)
    (config : Config) (tag : string) (rect : Rect.t) :
  getBoundingRectangle page tag = Some rect ->
  In tag (tags config) ->
  is_Some (scrapeStyles page config !! tag).
Proof.
  intros Hrect Hin. unfold getBoundingRectangle in Hrect.
  destruct (selectElement page tag) as [el|] eqn:Hel; [|discriminate].
  apply visibleLoop_in in Hel.
  rewrite scrapeStyles_lookup.
  rewrite decide_True by now apply list_elem_of_In.
  unfold querySelector.
  destruct (querySelectorAll page tag); [destruct Hel | eauto].
Qed.

Lemma captured_region_has_styles_witness :
  is_Some (scrapeStyles
             (Demo.pageOf false [Demo.hiddenHeader; Demo.headerDiv]) config
             !! "header, #header, #hd, .header").
Proof.
  apply (captured_region_has_styles
           (Demo.pageOf false [Demo.hiddenHeader; Demo.headerDiv]) config
           "header, #header, #hd, .header"
           (Rect.make (Num 0) (Num 0) (Num 800) (Num 60))).
  - reflexivity.
  - cbn. tauto.
Defined.

(** X10.  When the first element a group matches is visible, the screenshot and
    the styles of the region describe that same element: the rectangle is
    the padded rectangle of the element and the entry holds its computed
    value for every property of the configuration. *)
Theorem styles_and_screenshot_same_element {Element : Type}
    (page : Page Element) (config : Config) (tag : string) (el : Element) :
  querySelector page tag = Some el ->
  isVisible page el = true ->
  In tag (tags config) ->
  getBoundingRectangle page tag = Some (paddedRectangle page el) /\
  exists entry,
    scrapeStyles page config !! tag = Some entry /\
    forall p, In p (props config) ->
              entry !! p = Some (getComputedStyle page el p).
Proof.
  intros Hq Hvis Hin. split.
  - unfold getBoundingRectangle, selectElement. unfold querySelector in Hq.
    destruct (querySelectorAll page tag) as [|e els]; [discriminate|].
    injection Hq as ->. rewrite visibleLoop_head; [reflexivity|].
    unfold checkVisible. destruct (amd page); [reflexivity | exact Hvis].
  - rewrite scrapeStyles_lookup, Hq.
    rewrite decide_True by now apply list_elem_of_In.
    eexists. split; [reflexivity|]. intros p Hp.
    rewrite entry_lookup. now rewrite decide_True by now apply list_elem_of_In.
Qed.

Lemma styles_and_screenshot_same_element_witness :
  getBoundingRectangle (Demo.pageOf false [Demo.headerDiv; Demo.headerTag])
    "header, #header, #hd, .header"
  = Some (paddedRectangle
            (Demo.pageOf false [Demo.headerDiv; Demo.headerTag])
            Demo.headerDiv).
Proof.
  apply (styles_and_screenshot_same_element
           (Demo.pageOf false [Demo.headerDiv; Demo.headerTag]) config
           "header, #header, #hd, .header" Demo.headerDiv).
  - reflexivity.
  - reflexivity.
  - cbn. tauto.
Defined.

(** ** The log of [writeStyleJSON] *)

(** X11.  With the two background properties in the configuration, a key is
    logged as a [bgimage candidate] exactly when it is a region of the
    catalog whose first matched element has the computed background colour
    [rgba(0, 0, 0, 0)] and a computed background image other than [none];
    the object handed to [writeJson] is the style record itself, under the
    name [css]. *)
Theorem writeStyleJSON_candidates {Element : Type} (page : Page Element)
    (config : Config) (tag : string) :
  In "background-color" (props config) ->
  In "background-image" (props config) ->
  (tag ∈ fst (writeStyleJSON (scrapeStyles page config)) <->
   In tag (tags config) /\
   exists el,
     querySelector page tag = Some el /\
     getComputedStyle page el "background-color" = "rgba(0, 0, 0, 0)" /\
     getComputedStyle page el "background-image" <> "none") /\
  snd (writeStyleJSON (scrapeStyles page config))
  = (scrapeStyles page config, "css").
Proof.
  intros Hcolor Himage. split; [|reflexivity].
  unfold writeStyleJSON. cbn [fst]. rewrite elem_of_dom.
  assert (Hcand : forall el,
    bgimageCandidate
      (fold_left (fun _style _p => <[_p:=getComputedStyle page el _p]> _style)
         (props config) ∅) = true <->
    getComputedStyle page el "background-color" = "rgba(0, 0, 0, 0)" /\
    getComputedStyle page el "background-image" <> "none").
  { intros el. unfold bgimageCandidate. rewrite !entry_lookup.
    rewrite !decide_True by now apply list_elem_of_In.
    rewrite andb_true_iff, negb_true_iff, bool_decide_eq_true,
      bool_decide_eq_false.
    split; intros [H1 H2]; split; congruence. }
  split.
  - intros [entry Hentry].
    apply map_lookup_filter_Some in Hentry as [Hentry Hc]. cbn [snd] in Hc.
    rewrite scrapeStyles_lookup in Hentry.
    destruct (decide (tag ∈ tags config)) as [Hin|]; [|discriminate].
    destruct (querySelector page tag) as [el|]; [|discriminate].
    injection Hentry as <-. split; [now apply list_elem_of_In|].
    exists el. split; [reflexivity | now apply Hcand].
  - intros (Hin & el & Hq & Hc). eexists.
    apply map_lookup_filter_Some. split.
    + rewrite scrapeStyles_lookup, Hq.
      rewrite decide_True by now apply list_elem_of_In. reflexivity.
    + cbn [snd]. now apply Hcand.
Qed.

Lemma writeStyleJSON_candidates_witness :
  "section"
    ∉ fst (writeStyleJSON
             (scrapeStyles
                (Demo.pageOf false [Demo.padded "0px" "0px" "0px" "0px"])
                config)).
Proof.
  destruct (writeStyleJSON_candidates
              (Demo.pageOf false [Demo.padded "0px" "0px" "0px" "0px"])
              config "section") as [[H _] _].
  - cbn. tauto.
  - cbn. tauto.
  - intros Hin. destruct (H Hin) as (_ & el & Hq & Hc & _).
    injection Hq as <-. discriminate Hc.
Defined.


(** ** More of the colour extraction *)

(** *** When [Promise.all] is fulfilled *)

Lemma fulfilled_values results :
  Forall (fun r => r <> Pending) results ->
  results = map Fulfilled (map valueOf results).
Proof.
  induction 1 as [|r results Hr _ IH]; [reflexivity|].
  cbn [map]. rewrite <- IH. now destruct r.
Qed.

(** When [Promise.all] is fulfilled, every promise was, with the values it
    is fulfilled with. *)
Lemma promiseAll_fulfilled results order vals :
  Permutation order (seq 0 (length results)) ->
  promiseAll results order = Some vals ->
  results = map Fulfilled vals.
Proof.
  intros Hperm Hall.
  assert (Hf : Forall (fun r => r <> Pending) results).
  { apply List.Forall_forall. intros r Hr ->.
    apply list_elem_of_In, list_elem_of_lookup in Hr as [i Hi].
    now rewrite (promiseAll_pending results order i Hperm Hi) in Hall. }
  pose proof (fulfilled_values results Hf) as E.
  rewrite E in Hall. rewrite promiseAll_input_order in Hall.
  - injection Hall as <-. exact E.
  - now rewrite !length_map.
Qed.

(** *** The files and the results of the tasks *)

Section MoreTasks.

Context (runtime : fs.WithoutCallback).
Context (url : string) (getColors : string -> option (list Color)).
Context (config : Config).

#[local] Abbreviation path' tag := (screenshotPath url (buildTagSafe tag)).
#[local] Abbreviation task' := (promiseRelevantColors runtime url getColors).



(** Where a colour result comes from. *)
Lemma outcome_object files i r :
  outcomes runtime url getColors config files !! i = Some (Fulfilled (Object r)) ->
  exists tag _colors n,
    tags config !! i = Some tag /\
    r = ColorResult.make (buildTagSafe tag) _colors /\
    files !! path' tag = Some n /\ (0 < n)%N /\
    getColors (path' tag) = Some _colors.
Proof.
  unfold outcomes. change (map ?f ?l !! i) with ((f <$> l) !! i).
  rewrite list_lookup_fmap.
  destruct (tags config !! i) as [tag|]; [|discriminate].
  cbn [fmap option_fmap option_map]. intros [= H].
  destruct (task_cases runtime url getColors tag files)
    as [[_ T]|[[_ [[_ T]|[_ T]]]|(n & Hn & Hpos & _)]];
    [rewrite T in H; discriminate .. |].
  rewrite (task_content runtime url getColors tag files n Hn Hpos) in H.
  cbn [fst] in H.
  destruct (getColors (path' tag)) as [cs|] eqn:Ecs; [|discriminate].
  injection H as <-. exists tag, cs, n. repeat split; assumption.
Qed.

Lemma outcome_content files i tag _colors n :
  tags config !! i = Some tag ->
  files !! path' tag = Some n -> (0 < n)%N ->
  getColors (path' tag) = Some _colors ->
  outcomes runtime url getColors config files !! i
  = Some (Fulfilled (Object (ColorResult.make (buildTagSafe tag) _colors))).
Proof.
  intros Hi Hn Hpos Hcs. unfold outcomes.
  change (map ?f ?l !! i) with ((f <$> l) !! i).
  rewrite list_lookup_fmap, Hi. cbn [fmap option_fmap option_map].
  now rewrite (task_content runtime url getColors tag files n Hn Hpos), Hcs.
Qed.

Lemma outcome_pending files i tag n :
  tags config !! i = Some tag ->
  files !! path' tag = Some n -> (0 < n)%N ->
  getColors (path' tag) = None ->
  outcomes runtime url getColors config files !! i = Some Pending.
Proof.
  intros Hi Hn Hpos Hcs. unfold outcomes.
  change (map ?f ?l !! i) with ((f <$> l) !! i).
  rewrite list_lookup_fmap, Hi. cbn [fmap option_fmap option_map].
  now rewrite (task_content runtime url getColors tag files n Hn Hpos), Hcs.
Qed.

End MoreTasks.

(** *** The object of [colors.json] *)

Lemma recordColors_null vs : forall acc,
  In Null vs \/ In Undefined vs -> fold_left recordColors vs acc = None.
Proof.
  induction vs as [|v vs IH]; intros acc H; [destruct H as [[]|[]]|].
  cbn [fold_left].
  destruct v as [| |r].
  - destruct acc; cbn [recordColors]; apply recordColors_failed.
  - destruct acc; cbn [recordColors]; apply recordColors_failed.
  - apply IH. destruct H as [[H|H]|[H|H]]; try discriminate; auto.
Qed.

Lemma recordColors_lookup res :
  forall init : gmap string (list (N * N * N)),
    Forall (fun v => filterArray v = true) res ->
    exists json,
      fold_left recordColors res (Some init) = Some json /\
      forall k,
        json !! k
        = match lastResult k res with
          | Some r => Some (map rgb (ColorResult.colors r))
          | None => init !! k
          end.
Proof.
  induction res as [|v res IH]; intros init Hres.
  - exists init. now split.
  - apply Forall_cons in Hres as [Hv Hres].
    destruct v as [| |r]; try discriminate Hv.
    cbn [fold_left recordColors].
    destruct (IH (<[ColorResult.tag r:=map rgb (ColorResult.colors r)]> init)
                Hres) as (json & -> & Hjson).
    exists json. split; [reflexivity|]. intros k. rewrite Hjson.
    cbn [lastResult]. destruct (lastResult k res); [reflexivity|].
    destruct (String.eqb_spec (ColorResult.tag r) k) as [->|Hne].
    + apply lookup_insert_eq.
    + now apply lookup_insert_ne.
Qed.

Lemma lastResult_filter k vs :
  lastResult k (List.filter filterArray vs) = lastResult k vs.
Proof.
  induction vs as [|v vs IH]; [reflexivity|].
  destruct v as [| |r]; cbn [List.filter filterArray lastResult];
    rewrite ?IH; now destruct (lastResult k vs).
Qed.

Lemma lastResult_Some k vs r :
  lastResult k vs = Some r -> In (Object r) vs /\ ColorResult.tag r = k.
Proof.
  induction vs as [|v vs IH]; [discriminate|]. cbn [lastResult].
  destruct (lastResult k vs) as [r'|].
  - intros [= ->]. destruct (IH eq_refl) as [Hin Ht]. split; [now right|exact Ht].
  - destruct v as [| |r0]; try discriminate.
    destruct (String.eqb_spec (ColorResult.tag r0) k) as [E|]; [|discriminate].
    intros [= ->]. split; [now left | exact E].
Qed.

Lemma lastResult_found vs r :
  In (Object r) vs -> is_Some (lastResult (ColorResult.tag r) vs).
Proof.
  induction vs as [|v vs IH]; intros Hin; [destruct Hin|]. cbn [lastResult].
  destruct Hin as [->|Hin].
  - destruct (lastResult (ColorResult.tag r) vs); [eauto|].
    rewrite String.eqb_refl. eauto.
  - destruct (IH Hin) as [r' ->]. eauto.
Qed.

Lemma filter_filterArray_all vs :
  Forall (fun v => filterArray v = true) (List.filter filterArray vs).
Proof.
  apply List.Forall_forall. intros v Hv. now apply filter_In in Hv.
Qed.


(** X12.  When the screenshot of a region has content and the colour extractor
    calls back without colours, the promise of the region stays pending:
    [Promise.all] is never fulfilled and nothing is passed on to
    [writeRelavantColorsJSON], in whatever order the tasks complete. *)
Theorem promiseAllRelevantColors_never_fulfilled (runtime : fs.WithoutCallback)
    (url : string) (getColors : string -> option (list Color)) (config : Config)
    (order : list nat) (files : gmap string N) (tag : string) (n : N) :
  Permutation order (seq 0 (length (tags config))) ->
  In tag (tags config) ->
  files !! screenshotPath url (buildTagSafe tag) = Some n ->
  (0 < n)%N ->
  getColors (screenshotPath url (buildTagSafe tag)) = None ->
  fst (promiseRelevantColors runtime url getColors tag files) = Pending /\
  fst (promiseAllRelevantColors runtime url getColors config order files) = None.
Proof.
  intros Hperm Hin Hn Hpos Hcs. split.
  - now rewrite (task_content runtime url getColors tag files n Hn Hpos), Hcs.
  - apply list_elem_of_In, list_elem_of_lookup in Hin as [i Hi].
    rewrite promiseAllRelevantColors_promiseAll.
    rewrite (promiseAll_pending _ order i); [reflexivity| |].
    + now rewrite outcomes_length.
    + now apply (outcome_pending runtime url getColors config files i tag n).
Qed.

Lemma promiseAllRelevantColors_never_fulfilled_witness :
  fst (promiseAllRelevantColors fs.Throws "http://example.com" (fun _ => None)
         config [0; 1; 2; 3; 4; 5; 6]
         (<["./data/example.com/body.png":=120%N]> ∅))
  = None.
Proof.
  apply (promiseAllRelevantColors_never_fulfilled fs.Throws "http://example.com"
           (fun _ => None) config [0; 1; 2; 3; 4; 5; 6]
           (<["./data/example.com/body.png":=120%N]> ∅) "body" 120%N).
  - reflexivity.
  - cbn. tauto.
  - reflexivity.
  - reflexivity.
  - reflexivity.
Defined.






(** X15.  After the filter, [writeRelavantColorsJSON] never throws, and the object
    it writes holds, for every region identifier, the colours of the last
    result of the array for that identifier, as triples, and nothing for an
    identifier without a result; on an array with a null or an undefined
    entry it throws. *)
Theorem writeRelavantColorsJSON_after_filter (vs : list Value) :
  (exists json,
      writeRelavantColorsJSON (List.filter filterArray vs) = Some json /\
      forall k,
        json !! k
        = option_map (fun r => map rgb (ColorResult.colors r))
            (lastResult k vs)) /\
  (In Null vs \/ In Undefined vs -> writeRelavantColorsJSON vs = None).
Proof.
  split.
  - destruct (recordColors_lookup (List.filter filterArray vs) ∅
                (filter_filterArray_all vs)) as (json & E & Hjson).
    exists json. split; [exact E|]. intros k.
    rewrite Hjson, lastResult_filter.
    destruct (lastResult k vs); [reflexivity | apply lookup_empty].
  - apply recordColors_null.
Qed.

Lemma writeRelavantColorsJSON_after_filter_witness :
  writeRelavantColorsJSON
    [Object (ColorResult.make "body" [{| rgb := (255, 255, 255)%N |}]); Null]
  = None.
Proof.
  apply (writeRelavantColorsJSON_after_filter
           [Object (ColorResult.make "body" [{| rgb := (255, 255, 255)%N |}]);
            Null]).
  left. right. now left.
Defined.

(** X16.  The content of [colors.json]: when the colour pass passes an array on,
    [writeRelavantColorsJSON] does not throw on it, and the object it writes
    has the colours [cs] under the key [k] exactly when [k] is the
    identifier of a region of the catalog whose screenshot has content and
    [cs] are the colours the extractor gave for that screenshot, as
    triples. *)
Theorem colors_json_content (runtime : fs.WithoutCallback)
    (url : string) (getColors : string -> option (list Color)) (config : Config)
    (order : list nat) (files : gmap string N) (res : list Value) :
  Permutation order (seq 0 (length (tags config))) ->
  fst (promiseAllRelevantColors runtime url getColors config order files) = Some res ->
  exists json,
    writeRelavantColorsJSON res = Some json /\
    forall k cs,
      json !! k = Some cs <->
      exists tag _colors n,
        In tag (tags config) /\ k = buildTagSafe tag /\
        files !! screenshotPath url k = Some n /\ (0 < n)%N /\
        getColors (screenshotPath url k) = Some _colors /\
        cs = map rgb _colors.
Proof.
  intros Hperm Hres.
  rewrite promiseAllRelevantColors_promiseAll in Hres.
  destruct (promiseAll _ order) as [vals|] eqn:Hall; [|discriminate].
  injection Hres as <-.
  apply promiseAll_fulfilled in Hall; [|now rewrite outcomes_length].
  assert (Hfrom : forall r, In (Object r) vals ->
            exists tag _colors n,
              In tag (tags config) /\
              r = ColorResult.make (buildTagSafe tag) _colors /\
              files !! screenshotPath url (buildTagSafe tag) = Some n /\
              (0 < n)%N /\
              getColors (screenshotPath url (buildTagSafe tag)) = Some _colors).
  { intros r Hr. apply list_elem_of_In, list_elem_of_lookup in Hr as [i Hi].
    destruct (outcome_object runtime url getColors config files i r)
      as (tag & cs & n & Htag & Hrest).
    { rewrite Hall. change (map Fulfilled vals) with (Fulfilled <$> vals).
      now rewrite list_lookup_fmap, Hi. }
    exists tag, cs, n. split; [|exact Hrest].
    apply list_elem_of_In, list_elem_of_lookup. eauto. }
  destruct (recordColors_lookup (List.filter filterArray vals) ∅
              (filter_filterArray_all vals)) as (json & E & Hjson).
  exists json. split; [exact E|]. intros k cs.
  rewrite Hjson, lastResult_filter. split.
  - destruct (lastResult k vals) as [r|] eqn:Hlast;
      [|now rewrite lookup_empty].
    intros [= <-]. apply lastResult_Some in Hlast as [Hin <-].
    destruct (Hfrom r Hin) as (tag & _colors & n & Htag & -> & Hn & Hpos & Hcs).
    exists tag, _colors, n. now repeat split.
  - intros (tag & _colors & n & Htag & -> & Hn & Hpos & Hcs & ->).
    apply list_elem_of_In, list_elem_of_lookup in Htag as [i Hi].
    pose proof (outcome_content runtime url getColors config files i tag _colors n
                  Hi Hn Hpos Hcs) as Hout.
    rewrite Hall in Hout. change (map Fulfilled vals) with (Fulfilled <$> vals) in Hout.
    rewrite list_lookup_fmap in Hout.
    destruct (vals !! i) as [v|] eqn:Hv; [|discriminate].
    injection Hout as ->.
    assert (Hin : In (Object (ColorResult.make (buildTagSafe tag) _colors)) vals).
    { apply list_elem_of_In, list_elem_of_lookup. eauto. }
    destruct (lastResult_found vals _ Hin) as [r Hlast].
    cbn [ColorResult.tag] in Hlast. rewrite Hlast.
    apply lastResult_Some in Hlast as [Hr Ht].
    destruct (Hfrom r Hr) as (tag' & cs' & n' & _ & -> & _ & _ & Hcs').
    cbn [ColorResult.tag] in Ht. rewrite Ht in Hcs'.
    cbn [ColorResult.colors]. congruence.
Qed.

Lemma colors_json_content_witness :
  exists json,
    writeRelavantColorsJSON
      [Object (ColorResult.make "body" [{| rgb := (255, 255, 255)%N |}])]
    = Some json /\
    json !! "body" = Some [(255, 255, 255)%N].
Proof.
  destruct (colors_json_content fs.Throws "http://example.com"
              (fun _ => Some [{| rgb := (255, 255, 255)%N |}])
              {| tags := ["body"; "header, #header, #hd, .header"; "section"];
                 props := [] |}
              [2; 0; 1]
              (<["./data/example.com/body.png":=120%N]> ∅)
              [Object (ColorResult.make "body" [{| rgb := (255, 255, 255)%N |}])])
    as (json & E & Hjson).
  - exact (perm_trans (perm_swap 0 2 [1]) (perm_skip 0 (perm_swap 1 2 []))).
  - vm_compute. reflexivity.
  - exists json. split; [exact E|]. apply Hjson.
    exists "body", [{| rgb := (255, 255, 255)%N |}], 120%N.
    repeat split; try reflexivity. cbn. tauto.
Defined.
